(** * midi-router: a shallow embedding of the event decoder (midi.rs),
    the routing table (routing.rs) and the rule parser (parser/parser.rs). *)

From Stdlib Require Import ZArith List String Ascii Bool Lia.
Import ListNotations.
Open Scope Z_scope.

(** ** Rust results and panics *)

(** A Rust call either returns [Ok], returns [Err], or panics (an index
    out of bounds, or an arithmetic overflow in a build with overflow
    checks). *)
Inductive outcome (A E : Type) : Type :=
| Ok (a : A)
| Err (e : E)
| Panic.
Arguments Ok {A E} a.
Arguments Err {A E} e.
Arguments Panic {A E}.

(** Indexing a slice: [None] from [nth_error] is the index panic. *)
Notation "'let!' x := o 'in' k" :=
  (match o with Some x => k | None => Panic end)
  (at level 200, x ident, right associativity).

(** Rust integer overflow: a panic in a build with overflow checks
    (debug), two's complement wrap-around otherwise (release). *)
Inductive OverflowMode := Checked | Wrapping.

Definition i16_MIN : Z := -32768.
Definition i16_MAX : Z := 32767.
Definition u8_MIN : Z := 0.
Definition u8_MAX : Z := 255.

Definition wrap_i16 (z : Z) : Z := (z + 32768) mod 65536 - 32768.
Definition in_i16 (z : Z) : bool := (i16_MIN <=? z) && (z <=? i16_MAX).

(** [a + b] on [i16]; [None] is the overflow panic. *)
Definition i16_add (ovf : OverflowMode) (a b : Z) : option Z :=
  match ovf with
  | Checked => if in_i16 (a + b) then Some (a + b) else None
  | Wrapping => Some (wrap_i16 (a + b))
  end.

(** [a - b] on [i16]. *)
Definition i16_sub (ovf : OverflowMode) (a b : Z) : option Z :=
  i16_add ovf a (- b).

(** [a << n] on [i16]: bits shifted out are dropped, never an overflow. *)
Definition i16_shl (a n : Z) : Z := wrap_i16 (Z.shiftl a n).

(** ** midi.rs *)

Inductive MidiEvent :=
| NoteOff (channel note velocity : Z)
| NoteOn (channel note velocity : Z)
| PolyphonicAftertouch (channel note pressure : Z)
| ControlChange (channel control_no value : Z)
| ProgramChange (channel program : Z)
| ChannelAftertouch (channel pressure : Z)
| PitchBendChange (channel value : Z)
| SystemExclusive
| MidiTimeCodeQtrFrame
| SongPositionPointer
| SongSelect (song_num : Z)
| TuneRequest
| EndOfSysEx
| TimingClock
| Start
| Continue
| Stop
| ActiveSensing
| SystemReset
| Undefined.

(** The [IntoStaticStr] names given by the [strum] attributes. *)
Definition event_name (e : MidiEvent) : string :=
  match e with
  | NoteOff _ _ _ => "note-off"
  | NoteOn _ _ _ => "note-on"
  | PolyphonicAftertouch _ _ _ => "polyphonic-aftertouch"
  | ControlChange _ _ _ => "control-change"
  | ProgramChange _ _ => "program-change"
  | ChannelAftertouch _ _ => "channel-aftertouch"
  | PitchBendChange _ _ => "pitch-bend-change"
  | SystemExclusive => "system-exclusive"
  | MidiTimeCodeQtrFrame => "midi-time-code-qtr-frame"
  | SongPositionPointer => "song-position-pointer"
  | SongSelect _ => "song-select"
  | TuneRequest => "tone-request"
  | EndOfSysEx => "end-of-sys-ex"
  | TimingClock => "timing-clock"
  | Start => "start"
  | Continue => "continue"
  | Stop => "stop"
  | ActiveSensing => "active-sensing"
  | SystemReset => "system-reset"
  | Undefined => "undefined"
  end.

Definition MIN_PITCHWHEEL : Z := -8192.

(** The error of [decode_raw_midi]: "Unknown MIDI event ID: {event_type}". *)
Inductive DecodeError := UnknownEventKind (event_type : Z).

(** [decode_raw_midi]; [raw_midi.bytes] is a list of [u8] values. *)
Definition decode_raw_midi (ovf : OverflowMode) (bytes : list Z)
  : outcome MidiEvent DecodeError :=
  let! b0 := nth_error bytes 0 in
  let event_type := Z.shiftr b0 4 in
  let channel := Z.land b0 15 + 1 in
  match event_type with
  | 8 => let! note := nth_error bytes 1 in let! velocity := nth_error bytes 2 in
         Ok (NoteOff channel note velocity)
  | 9 => let! note := nth_error bytes 1 in let! velocity := nth_error bytes 2 in
         Ok (NoteOn channel note velocity)
  | 10 => let! note := nth_error bytes 1 in let! pressure := nth_error bytes 2 in
          Ok (PolyphonicAftertouch channel note pressure)
  | 11 => let! control_no := nth_error bytes 1 in let! value := nth_error bytes 2 in
          Ok (ControlChange channel control_no value)
  | 12 => let! program := nth_error bytes 1 in Ok (ProgramChange channel program)
  | 13 => let! pressure := nth_error bytes 1 in Ok (ChannelAftertouch channel pressure)
  | 14 =>
      let! b2 := nth_error bytes 2 in
      let! b1 := nth_error bytes 1 in
      let! v := i16_add ovf (i16_shl b2 7) b1 in
      let! value := i16_add ovf v MIN_PITCHWHEEL in
      Ok (PitchBendChange channel value)
  | 15 =>
      match channel with
      | 0 => Ok SystemExclusive
      | 1 => Ok MidiTimeCodeQtrFrame
      | 2 => Ok SongPositionPointer
      | 3 => let! song_num := nth_error bytes 1 in Ok (SongSelect song_num)
      | 6 => Ok TuneRequest
      | 7 => Ok EndOfSysEx
      | 8 => Ok TimingClock
      | 10 => Ok Start
      | 11 => Ok Continue
      | 12 => Ok Stop
      | 14 => Ok ActiveSensing
      | 15 => Ok SystemReset
      | _ => Ok Undefined
      end
  | _ => Err (UnknownEventKind event_type)
  end.

(** ** routing.rs *)

Record NumericRange := { start : Z; end_ : Z }.

Definition is_within (r : NumericRange) (value : Z) : bool :=
  (start r <=? value) && (value <=? end_ r).

(** The [regex] crate, seen through the two functions the program calls:
    [Regex::new] (failing on a malformed pattern) and [Regex::is_match]. *)
Class RegexEngine (Regex : Type) := {
  regex_new : string -> option Regex;
  is_match : Regex -> string -> bool
}.

Section Routing.
Context {Regex : Type} `{RE : RegexEngine Regex}.

Record Condition := {
  event_pattern : option Regex;
  channel_pattern : option NumericRange;
  value_pattern : option NumericRange;
  velocity_pattern : option NumericRange;
  controller_pattern : option NumericRange
}.

Definition match_range (range : option NumericRange) (value : Z) : bool :=
  match range with Some c => is_within c value | None => true end.

Definition match_channel (c : Condition) (channel : Z) : bool :=
  match_range (channel_pattern c) channel.
Definition match_value (c : Condition) (value : Z) : bool :=
  match_range (value_pattern c) value.
(** [value as i16] for a [u8] is the identity on its value. *)
Definition match_value_u8 (c : Condition) (value : Z) : bool :=
  match_value c value.
Definition match_velocity (c : Condition) (velocity : Z) : bool :=
  match_range (velocity_pattern c) velocity.
Definition match_control_no (c : Condition) (controller : Z) : bool :=
  match_range (controller_pattern c) controller.

Definition matches (c : Condition) (midi_event : MidiEvent) : bool :=
  let event_name := event_name midi_event in
  if negb (match event_pattern c with
           | Some p => is_match p event_name
           | None => true
           end)
  then false
  else
    match midi_event with
    | NoteOff channel note velocity
    | NoteOn channel note velocity
    | PolyphonicAftertouch channel note velocity =>
        match_velocity c velocity && match_value_u8 c note && match_channel c channel
    | ControlChange channel control_no value =>
        match_channel c channel && match_control_no c control_no && match_value_u8 c value
    | ProgramChange channel value
    | ChannelAftertouch channel value =>
        match_channel c channel && match_value_u8 c value
    | PitchBendChange channel value =>
        match_channel c channel && match_value c value
    | SongSelect song_num => match_value_u8 c song_num
    | _ => true
    end.

Inductive Action := ForwardTo (output_port : string).

Record Rule := { condition : Condition; actions : list Action }.

Record RoutingTable := { rules : list Rule }.

Definition get_port_from_action (action : Action) : option string :=
  match action with ForwardTo output_port => Some output_port end.

Definition get_ports_from_actions (actions : list Action) : list string :=
  fold_left (fun ports action =>
               match get_port_from_action action with
               | Some port => ports ++ [port]
               | None => ports
               end) actions [].

Definition get_output_ports (t : RoutingTable) (midi_event : MidiEvent) : list string :=
  fold_left (fun ports rule =>
               if matches (condition rule) midi_event
               then ports ++ get_ports_from_actions (actions rule)
               else ports) (rules t) [].

End Routing.

Arguments Condition Regex : clear implicits.
Arguments Rule Regex : clear implicits.
Arguments RoutingTable Regex : clear implicits.

(** ** parser/parser.rs *)

Open Scope string_scope.

(** [char::is_whitespace] on ASCII: tab, line feed, vertical tab, form
    feed, carriage return and space. *)
Definition is_whitespace (c : ascii) : bool :=
  let n := nat_of_ascii c in (Nat.eqb n 32) || (Nat.leb 9 n && Nat.leb n 13).

Fixpoint trim_start (s : string) : string :=
  match s with
  | String c r => if is_whitespace c then trim_start r else s
  | EmptyString => EmptyString
  end.

Definition str_rev (s : string) : string :=
  string_of_list_ascii (rev (list_ascii_of_string s)).

(** [str::trim]. *)
Definition trim (s : string) : string := str_rev (trim_start (str_rev (trim_start s))).

(** [str::split_whitespace]: the maximal runs of non-whitespace
    characters, in order. [cur] is the run being read, reversed. *)
Fixpoint split_ws_aux (cur : list ascii) (s : string) : list string :=
  match s with
  | EmptyString =>
      match cur with [] => [] | _ => [string_of_list_ascii (rev cur)] end
  | String c r =>
      if is_whitespace c then
        match cur with
        | [] => split_ws_aux [] r
        | _ => string_of_list_ascii (rev cur) :: split_ws_aux [] r
        end
      else split_ws_aux (c :: cur) r
  end.

Definition split_whitespace (s : string) : list string := split_ws_aux [] s.

Definition is_digit (c : ascii) : bool :=
  let n := nat_of_ascii c in Nat.leb 48 n && Nat.leb n 57.

Definition digit_value (c : ascii) : Z := Z.of_nat (nat_of_ascii c) - 48.

Fixpoint digits_value (acc : Z) (s : string) : option Z :=
  match s with
  | EmptyString => Some acc
  | String c r => if is_digit c then digits_value (10 * acc + digit_value c) r else None
  end.

(** [str::parse::<i16>]: an optional sign and at least one decimal digit,
    failing on any other character and outside [i16::MIN..=i16::MAX]. *)
Definition parse_i16 (s : string) : option Z :=
  let v := match s with
           | String "-" (String _ _ as r) => option_map Z.opp (digits_value 0 r)
           | String "+" (String _ _ as r) => digits_value 0 r
           | String _ _ => digits_value 0 s
           | EmptyString => None
           end in
  match v with
  | Some z => if in_i16 z then Some z else None
  | None => None
  end.

(** The named capture groups of [FIELD_PAT]. *)
Record Captures := {
  cap_type : option string;
  cap_wildcard : option string;
  cap_start : option string;
  cap_end : option string;
  cap_lower_bound : option string;
  cap_upper_bound : option string;
  cap_exact_value : option string
}.

(** [\d+], greedy: the leading digits and the rest. *)
Fixpoint scan_digits (s : string) : string * string :=
  match s with
  | String c r =>
      if is_digit c then let (d, rest) := scan_digits r in (String c d, rest)
      else (EmptyString, s)
  | EmptyString => (EmptyString, EmptyString)
  end.

(** [-?\d+], greedy. Since every use of it is followed by ['-'] or by the
    end of the token, the greedy split is the only one that can succeed. *)
Definition scan_int (s : string) : option (string * string) :=
  match s with
  | String "-" r =>
      match scan_digits r with
      | (EmptyString, _) => None
      | (d, rest) => Some (String "-" d, rest)
      end
  | _ =>
      match scan_digits s with
      | (EmptyString, _) => None
      | (d, rest) => Some (d, rest)
      end
  end.

Definition or_else {A} (o1 o2 : option A) : option A :=
  match o1 with Some x => Some x | None => o2 end.

Definition caps_wildcard : Captures :=
  {| cap_type := None; cap_wildcard := Some "*"; cap_start := None; cap_end := None;
     cap_lower_bound := None; cap_upper_bound := None; cap_exact_value := None |}.
Definition caps_range (a b : string) : Captures :=
  {| cap_type := None; cap_wildcard := None; cap_start := Some a; cap_end := Some b;
     cap_lower_bound := None; cap_upper_bound := None; cap_exact_value := None |}.
Definition caps_lower (l : string) : Captures :=
  {| cap_type := None; cap_wildcard := None; cap_start := None; cap_end := None;
     cap_lower_bound := Some l; cap_upper_bound := None; cap_exact_value := None |}.
Definition caps_upper (u : string) : Captures :=
  {| cap_type := None; cap_wildcard := None; cap_start := None; cap_end := None;
     cap_lower_bound := None; cap_upper_bound := Some u; cap_exact_value := None |}.
Definition caps_exact (n : string) : Captures :=
  {| cap_type := None; cap_wildcard := None; cap_start := None; cap_end := None;
     cap_lower_bound := None; cap_upper_bound := None; cap_exact_value := Some n |}.

(** The five alternatives of the body of [FIELD_PAT], each anchored at the
    end of the token. *)
Definition alt_wildcard (s : string) : option Captures :=
  if String.eqb s "*" then Some caps_wildcard else None.

Definition alt_range (s : string) : option Captures :=
  match scan_int s with
  | Some (a, String c r) =>
      if Ascii.eqb c "-" then
        match scan_int r with
        | Some (b, EmptyString) => Some (caps_range a b)
        | _ => None
        end
      else None
  | _ => None
  end.

Definition alt_lower (s : string) : option Captures :=
  match s with
  | String c r =>
      if Ascii.eqb c ">" then
        match scan_int r with
        | Some (l, EmptyString) => Some (caps_lower l)
        | _ => None
        end
      else None
  | EmptyString => None
  end.

Definition alt_upper (s : string) : option Captures :=
  match s with
  | String c r =>
      if Ascii.eqb c "<" then
        match scan_int r with
        | Some (u, EmptyString) => Some (caps_upper u)
        | _ => None
        end
      else None
  | EmptyString => None
  end.

Definition alt_exact (s : string) : option Captures :=
  match scan_int s with
  | Some (n, EmptyString) => Some (caps_exact n)
  | _ => None
  end.

(** [(?:(?P<wildcard>[*])|(?P<start>-?\d+)-(?P<end>-?\d+)|>(?P<lower_bound>-?\d+)|<(?P<upper_bound>-?\d+)|(?P<exact_value>-?\d+))$]:
    the alternatives are tried in order and the first that reaches the end
    of the token gives the groups. *)
Definition field_body_groups (s : string) : option Captures :=
  or_else (alt_wildcard s)
  (or_else (alt_range s)
  (or_else (alt_lower s)
  (or_else (alt_upper s)
    (alt_exact s)))).

Definition set_type (ty : option string) (g : Captures) : Captures :=
  {| cap_type := ty; cap_wildcard := cap_wildcard g; cap_start := cap_start g;
     cap_end := cap_end g; cap_lower_bound := cap_lower_bound g;
     cap_upper_bound := cap_upper_bound g; cap_exact_value := cap_exact_value g |}.

(** The body after the [type] group [ty] has matched (or not). *)
Definition field_body (ty : option string) (s : string) : option Captures :=
  option_map (set_type ty) (field_body_groups s).

Definition ascii_to_lower (c : ascii) : ascii :=
  let n := nat_of_ascii c in
  if Nat.leb 65 n && Nat.leb n 90 then ascii_of_nat (n + 32) else c.

(** Case-insensitive match of the literal [p] at the start of [s]: the
    matched text (with its case as written) and the rest. *)
Fixpoint strip_prefix_ci (p s : string) : option (string * string) :=
  match p, s with
  | EmptyString, _ => Some (EmptyString, s)
  | String pc pr, String c r =>
      if Ascii.eqb (ascii_to_lower c) pc then
        match strip_prefix_ci pr r with
        | Some (m, rest) => Some (String c m, rest)
        | None => None
        end
      else None
  | String _ _, EmptyString => None
  end.

(** [FIELD_PAT.captures(value)] for
    [^(?P<type>ch|vel|ctrl)?(...)$] with [case_insensitive(true)]: the
    optional group is greedy, its alternatives are tried in order, and the
    engine backtracks to the empty choice when the body fails. *)
Definition with_type (p value : string) : option Captures :=
  match strip_prefix_ci p value with
  | Some (m, rest) => field_body (Some m) rest
  | None => None
  end.

Definition field_pat_captures (value : string) : option Captures :=
  or_else (with_type "ch" value)
  (or_else (with_type "vel" value)
  (or_else (with_type "ctrl" value)
    (field_body None value))).

(** [FieldFormatError] and the other causes a [FieldParseError] carries. *)
Inductive FieldErrorReason :=
| RegexError
| ParseIntError
| InvalidFormat
| NumberOutOfRange (min max : Z).

Record FieldParseError := {
  field_id : nat;
  content : string;
  reason : FieldErrorReason
}.

Inductive RuleParseError :=
| InvalidFields (line_no : nat) (invalid_fields : list FieldParseError).

Record RuleConfigError := { errors : list RuleParseError }.

Definition bind_outcome {A B E} (o : outcome A E) (k : A -> outcome B E) : outcome B E :=
  match o with Ok a => k a | Err e => Err e | Panic => Panic end.

(** Rust's [?] operator. *)
Notation "'let?' x := o 'in' k" := (bind_outcome o (fun x => k))
  (at level 200, x ident, right associativity).

Section Parser.
Context {Regex : Type} `{RE : RegexEngine Regex}.
Variable ovf : OverflowMode.

Inductive Field :=
| NameField (name_pattern : Regex)
| ValueField (start end_ : Z)
| ChannelField (start end_ : Z)
| VelocityField (start end_ : Z)
| ControlNoField (start end_ : Z).

Definition FORWARD_SYMBOL : string := "=>".

Definition parse_value_field (field_id : nat) (value : string) (captures : Captures)
  : outcome Field FieldParseError :=
  let value_type_str := match cap_type captures with Some m => m | None => "" end in
  let get_match_as_i16 (m : option string) : outcome (option Z) FieldParseError :=
    match m with
    | None => Ok None
    | Some s =>
        match parse_i16 s with
        | Some v => Ok (Some v)
        | None => Err {| field_id := field_id; content := value; reason := ParseIntError |}
        end
    end in
  let default_start := if String.eqb value_type_str "" then i16_MIN else u8_MIN in
  let default_end := if String.eqb value_type_str "" then i16_MAX else u8_MAX in
  let? s := get_match_as_i16 (cap_start captures) in
  let start := match s with Some v => v | None => default_start end in
  let? e := get_match_as_i16 (cap_end captures) in
  let end_ := match e with Some v => v | None => default_end end in
  let? lb := get_match_as_i16 (cap_lower_bound captures) in
  let? lower_bound :=
    match lb with
    | Some b => match i16_add ovf b 1 with Some v => Ok v | None => Panic end
    | None => Ok default_start
    end in
  let? ub := get_match_as_i16 (cap_upper_bound captures) in
  let? upper_bound :=
    match ub with
    | Some b => match i16_sub ovf b 1 with Some v => Ok v | None => Panic end
    | None => Ok default_end
    end in
  let? exact_value := get_match_as_i16 (cap_exact_value captures) in
  let start := match exact_value with Some v => v | None => Z.max start lower_bound end in
  let end_ := match exact_value with Some v => v | None => Z.min end_ upper_bound end in
  if negb (String.eqb value_type_str "")
     && negb ((0 <=? start)%Z && (start <=? end_)%Z && (end_ <=? 255)%Z)
  then Err {| field_id := field_id; content := value;
              reason := NumberOutOfRange 0 255 |}
  else
    Ok (if String.eqb value_type_str "ch" then ChannelField start end_
        else if String.eqb value_type_str "vel" then VelocityField start end_
        else if String.eqb value_type_str "ctrl" then ControlNoField start end_
        else ValueField start end_).

Definition parse_name_pattern_field (field_id : nat) (value : string)
  : outcome Field FieldParseError :=
  match regex_new value with
  | Some name_pattern => Ok (NameField name_pattern)
  | None => Err {| field_id := field_id; content := value; reason := RegexError |}
  end.

Definition parse_field_lhs (field_id : nat) (value : string) : outcome Field FieldParseError :=
  if Nat.eqb field_id 0 then parse_name_pattern_field field_id value
  else match field_pat_captures value with
       | Some captures => parse_value_field field_id value captures
       | None => Err {| field_id := field_id; content := value; reason := InvalidFormat |}
       end.

Inductive RuleParserState := ParseLeftHandSide | ParseRightHandSide.

(** The [ConditionBuilder] has the fields of a [Condition]; [build] moves
    them out unchanged. *)
Record RuleParser := {
  condition_builder : Condition Regex;
  rp_errors : list FieldParseError;
  output_names : list string;
  state : RuleParserState
}.

Definition ConditionBuilder_new : Condition Regex :=
  {| event_pattern := None; channel_pattern := None; value_pattern := None;
     velocity_pattern := None; controller_pattern := None |}.

Definition RuleParser_new : RuleParser :=
  {| condition_builder := ConditionBuilder_new; rp_errors := []; output_names := [];
     state := ParseLeftHandSide |}.

Definition set_builder (p : RuleParser) (b : Condition Regex) : RuleParser :=
  {| condition_builder := b; rp_errors := rp_errors p; output_names := output_names p;
     state := state p |}.

Definition set_state (p : RuleParser) (s : RuleParserState) : RuleParser :=
  {| condition_builder := condition_builder p; rp_errors := rp_errors p;
     output_names := output_names p; state := s |}.

Definition parse_lhs (p : RuleParser) (field_id : nat) (value : string) : option RuleParser :=
  let b := condition_builder p in
  match parse_field_lhs field_id value with
  | Ok (NameField name_pattern) =>
      Some (set_builder p {| event_pattern := Some name_pattern;
                             channel_pattern := channel_pattern b; value_pattern := value_pattern b;
                             velocity_pattern := velocity_pattern b;
                             controller_pattern := controller_pattern b |})
  | Ok (ValueField s e) =>
      Some (set_builder p {| event_pattern := event_pattern b;
                             channel_pattern := channel_pattern b;
                             value_pattern := Some {| start := s; end_ := e |};
                             velocity_pattern := velocity_pattern b;
                             controller_pattern := controller_pattern b |})
  | Ok (ChannelField s e) =>
      Some (set_builder p {| event_pattern := event_pattern b;
                             channel_pattern := Some {| start := s; end_ := e |};
                             value_pattern := value_pattern b;
                             velocity_pattern := velocity_pattern b;
                             controller_pattern := controller_pattern b |})
  | Ok (VelocityField s e) =>
      Some (set_builder p {| event_pattern := event_pattern b;
                             channel_pattern := channel_pattern b; value_pattern := value_pattern b;
                             velocity_pattern := Some {| start := s; end_ := e |};
                             controller_pattern := controller_pattern b |})
  | Ok (ControlNoField s e) =>
      Some (set_builder p {| event_pattern := event_pattern b;
                             channel_pattern := channel_pattern b; value_pattern := value_pattern b;
                             velocity_pattern := velocity_pattern b;
                             controller_pattern := Some {| start := s; end_ := e |} |})
  | Err error =>
      Some {| condition_builder := b; rp_errors := rp_errors p ++ [error];
              output_names := output_names p; state := state p |}
  | Panic => None
  end.

Definition parse_rhs (p : RuleParser) (_ : nat) (value : string) : RuleParser :=
  {| condition_builder := condition_builder p; rp_errors := rp_errors p;
     output_names := output_names p ++ [value]; state := state p |}.

(** The [for (field_id, value) in ... .enumerate()] loop of
    [RuleParser::parse]; [None] is a panic inside it. *)
Fixpoint parse_tokens (p : RuleParser) (field_id : nat) (tokens : list string)
  : option RuleParser :=
  match tokens with
  | [] => Some p
  | value :: rest =>
      if String.eqb value FORWARD_SYMBOL
      then parse_tokens (set_state p ParseRightHandSide) (S field_id) rest
      else match state p with
           | ParseLeftHandSide =>
               match parse_lhs p field_id value with
               | Some p' => parse_tokens p' (S field_id) rest
               | None => None
               end
           | ParseRightHandSide => parse_tokens (parse_rhs p field_id value) (S field_id) rest
           end
  end.

Definition RuleParser_parse (p : RuleParser) (line_no : nat) (line : string)
  : outcome (Rule Regex) RuleParseError :=
  let! p := parse_tokens p 0 (split_whitespace (trim line)) in
  if Nat.ltb 0 (List.length (rp_errors p))
  then Err (InvalidFields line_no (rp_errors p))
  else Ok {| condition := condition_builder p;
             actions := map ForwardTo (output_names p) |}.

Definition parse_rule (line_no : nat) (line : string) : outcome (Rule Regex) RuleParseError :=
  RuleParser_parse RuleParser_new line_no line.

(** The loop of [load_rules_from_file] over the lines of the file, numbered
    from [line_no]; [None] is a panic inside it. *)
Fixpoint load_lines (line_no : nat) (lines : list string)
  (rules : list (Rule Regex)) (errors : list RuleParseError)
  : option (list (Rule Regex) * list RuleParseError) :=
  match lines with
  | [] => Some (rules, errors)
  | l :: rest =>
      let line := trim l in
      if String.eqb line ""
      then load_lines (S line_no) rest rules errors
      else match parse_rule line_no line with
           | Ok rule => load_lines (S line_no) rest (rules ++ [rule]) errors
           | Err error => load_lines (S line_no) rest rules (errors ++ [error])
           | Panic => None
           end
  end.

(** [load_rules_from_file], from the file's lines as [BufRead::lines]
    yields them once the file has been opened and read (the I/O errors of
    [File::open] and of reading are a separate error kind). *)
Definition load_rules_from_file (lines : list string)
  : outcome (list (Rule Regex)) RuleConfigError :=
  match load_lines 0 lines [] [] with
  | None => Panic
  | Some (rules, errors) =>
      match errors with
      | [] => Ok rules
      | _ => Err {| errors := errors |}
      end
  end.

End Parser.

Arguments Field Regex : clear implicits.
Arguments RuleParser Regex : clear implicits.

(** ** utils.rs *)

Definition newline : ascii := ascii_of_nat 10.

(** [s.repeat(n)]. *)
Fixpoint repeat_str (s : string) (n : nat) : string :=
  match n with
  | O => EmptyString
  | S k => s ++ repeat_str s k
  end.

(** [s.replace(pat, to)] for a pattern of one character [c]: every
    occurrence of [c], from left to right, replaced by [to]. *)
Fixpoint replace_char (c : ascii) (to s : string) : string :=
  match s with
  | EmptyString => EmptyString
  | String x r =>
      if Ascii.eqb x c then to ++ replace_char c to r else String x (replace_char c to r)
  end.

(** [indent]: every line feed followed by [n] spaces. *)
Definition indent (s : string) (n : nat) : string :=
  let spaces := repeat_str " " n in
  let replacement := String newline spaces in
  replace_char newline replacement s.

(** ** parser/errors.rs: the [Display] implementations *)

(** [Display] of an unsigned integer: its decimal digits, most
    significant first ([fuel] bounds the number of digits). *)
Fixpoint dec_digits (fuel : nat) (n : N) (acc : string) : string :=
  match fuel with
  | O => acc
  | S f =>
      let acc' := String (ascii_of_N (48 + N.modulo n 10)) acc in
      if N.ltb n 10 then acc' else dec_digits f (N.div n 10) acc'
  end.

Definition N_to_string (n : N) : string := dec_digits (S (N.size_nat n)) n EmptyString.

Definition usize_to_string (n : nat) : string := N_to_string (N.of_nat n).

(** [Display] of an [i16]: a minus sign before the digits of a negative
    number. *)
Definition i16_to_string (z : Z) : string :=
  if (z <? 0)%Z then "-" ++ N_to_string (Z.to_N (- z)) else N_to_string (Z.to_N z).

(** [v.join(sep)] on a [Vec<String>]. *)
Fixpoint join (sep : string) (l : list string) : string :=
  match l with
  | [] => EmptyString
  | [x] => x
  | x :: rest => x ++ sep ++ join sep rest
  end.

(** The separator ["\n  - "] of the error lists. *)
Definition item_sep : string := String newline "  - ".

Definition obind {A B} (o : option A) (k : A -> option B) : option B :=
  match o with Some a => k a | None => None end.

(** A [None] result is the panic of an overflow in a build with overflow
    checks. *)
Section Display.
Variable ovf : OverflowMode.
(** The [Display] text of the [regex::Error] and [ParseIntError] reasons,
    from library code outside the repository. *)
Variable library_reason_str : FieldErrorReason -> string.

(** [Display for FieldFormatError]: the bounds shown are [min + 1] and
    [max - 1]. *)
Definition field_format_error_to_string (r : FieldErrorReason) : option string :=
  match r with
  | InvalidFormat => Some "Invalid format"
  | NumberOutOfRange min max =>
      obind (i16_add ovf min 1) (fun lo =>
      obind (i16_sub ovf max 1) (fun hi =>
      Some ("Value must be between " ++ i16_to_string lo ++ " and " ++ i16_to_string hi)))
  | RegexError | ParseIntError => Some (library_reason_str r)
  end.

(** [Display for FieldParseError]; the parser always sets a reason, so the
    ["Reason unknown"] branch is not reached. *)
Definition field_parse_error_to_string (e : FieldParseError) : option string :=
  obind (field_format_error_to_string (reason e)) (fun reason_str =>
  Some ("Parsing '" ++ content e ++ "' in field " ++ usize_to_string (field_id e) ++
        " failed: " ++ reason_str)).

Fixpoint map_option {A B} (f : A -> option B) (l : list A) : option (list B) :=
  match l with
  | [] => Some []
  | x :: rest => obind (f x) (fun y => obind (map_option f rest) (fun ys => Some (y :: ys)))
  end.

(** [Display for RuleParseError]: the line number shown is [line_no + 1]. *)
Definition rule_parse_error_to_string (e : RuleParseError) : option string :=
  match e with
  | InvalidFields line_no invalid_fields =>
      obind (map_option field_parse_error_to_string invalid_fields) (fun msgs =>
      Some ("Invalid field in line " ++ usize_to_string (line_no + 1) ++ ":" ++ item_sep ++
            join item_sep (map (fun msg => indent msg 4) msgs)))
  end.

(** [Display for RuleConfigError]. *)
Definition rule_config_error_to_string (e : RuleConfigError) : option string :=
  obind (map_option rule_parse_error_to_string (errors e)) (fun msgs =>
  Some ("Rule parsing failed. " ++ usize_to_string (List.length (errors e)) ++
        " errors were found: " ++ item_sep ++ join item_sep (map (fun msg => indent msg 4) msgs))).

End Display.

(** ** routing.rs: [get_all_output_ports] *)

(** The [HashSet] of the port names of all the actions of all the rules,
    as a list without duplicates ([nodup] keeps the last use of each
    name; no property below depends on the iteration order of the set). *)
Definition get_all_output_ports {Regex} (t : RoutingTable Regex) : list string :=
  nodup string_dec
    (map (fun action => match action with ForwardTo output_port => output_port end)
         (flat_map (fun rule => actions rule) (rules t))).

(** ** jack_router.rs *)

(** [jack::RawMidi]: a frame time and the bytes of the message. *)
Record RawMidi := { time : Z; bytes : list Z }.

Section Jack.
Context {Regex : Type} `{RE : RegexEngine Regex}.
Variable ovf : OverflowMode.
Variable JackError : Type.
(** [Client::register_port] for a MIDI output port: [None] when the port
    was registered, [Some error] otherwise. *)
Variable register_port : string -> option JackError.
(** [MidiWriter::write] of an event to a port, given the writes of the
    cycle so far: [false] when it returns an error (a full buffer). *)
Variable write_ok : list (string * RawMidi) -> string -> RawMidi -> bool.

Record JackRouterError := { reasons : list JackError }.

(** The loop of [register_midi_output_ports]; the [HashMap] of ports is
    represented by its keys, the port handles being opaque. *)
Fixpoint register_ports (names : list string) (ports : list string) (errs : list JackError)
  : list string * list JackError :=
  match names with
  | [] => (ports, errs)
  | port_name :: rest =>
      match register_port port_name with
      | None => register_ports rest (ports ++ [port_name]) errs
      | Some error => register_ports rest ports (errs ++ [error])
      end
  end.

Definition register_midi_output_ports (t : RoutingTable Regex)
  : outcome (list string) JackRouterError :=
  let '(midi_output_ports, errs) := register_ports (get_all_output_ports t) [] [] in
  match errs with
  | [] => Ok midi_output_ports
  | _ => Err {| reasons := errs |}
  end.

(** [create_output_port_writers]: one writer for each port, under the
    port's name. *)
Definition create_output_port_writers (output_ports : list string) : list string :=
  map (fun port_name => port_name) output_ports.

(** [send_event_out]; the writes of the cycle are the list [log]; [None]
    is the panic of [unwrap] on a failed write. A port without a writer is
    logged and skipped. *)
Fixpoint send_event_out (raw_event : RawMidi) (output_port_names : list string)
  (writers : list string) (log : list (string * RawMidi)) : option (list (string * RawMidi)) :=
  match output_port_names with
  | [] => Some log
  | port_name :: rest =>
      if existsb (String.eqb port_name) writers
      then if write_ok log port_name raw_event
           then send_event_out raw_event rest writers (log ++ [(port_name, raw_event)])
           else None
      else send_event_out raw_event rest writers log
  end.

(** The loop of [process] over the events of the input port; an event that
    does not decode is logged and skipped. [None] is a panic. *)
Fixpoint process_events (t : RoutingTable Regex) (writers : list string)
  (inputs : list RawMidi) (log : list (string * RawMidi)) : option (list (string * RawMidi)) :=
  match inputs with
  | [] => Some log
  | raw_event :: rest =>
      match decode_raw_midi ovf (bytes raw_event) with
      | Ok midi_event =>
          match send_event_out raw_event (get_output_ports t midi_event) writers log with
          | Some log' => process_events t writers rest log'
          | None => None
          end
      | Err _ => process_events t writers rest log
      | Panic => None
      end
  end.

(** [process] for one cycle: the writes it makes, in order. *)
Definition process (t : RoutingTable Regex) (output_ports : list string) (inputs : list RawMidi)
  : option (list (string * RawMidi)) :=
  process_events t (create_output_port_writers output_ports) inputs [].

End Jack.

(** ** A concrete regex engine for evaluations *)

(** The characters with a meaning in the syntax of the [regex] crate. *)
Definition regex_metachar (c : ascii) : bool :=
  existsb (Ascii.eqb c) (list_ascii_of_string "\.+*?()|[]{}^$").

(** For a pattern with no metacharacter, [Regex::new] succeeds and
    [is_match] searches the pattern as a substring. This engine accepts
    exactly those patterns, and is used to evaluate rules written with them. *)
#[export] Instance literal_regex : RegexEngine string := {
  regex_new p := if existsb regex_metachar (list_ascii_of_string p) then None else Some p;
  is_match p s := match String.index 0 p s with Some _ => true | None => false end
}.

(** ** Statements read off the spec *)

Section RoutingSpec.
Context {Regex : Type} `{RE : RegexEngine Regex}.
Local Open Scope list_scope.

(** The destination named by an action. *)
Definition action_port (a : Action) : string := match a with ForwardTo p => p end.

(** §4.5: the ports of the matching rules, rule after rule, each rule's
    actions in order. *)
Definition routed_ports (t : RoutingTable Regex) (e : MidiEvent) : list string :=
  flat_map (fun r => if matches (condition r) e then map action_port (actions r) else [])
           (rules t).

(** The four numeric predicates of a condition. *)
Inductive Slot := SlotChannel | SlotValue | SlotVelocity | SlotController.

Definition slot_pattern (c : Condition Regex) (s : Slot) : option NumericRange :=
  match s with
  | SlotChannel => channel_pattern c
  | SlotValue => value_pattern c
  | SlotVelocity => velocity_pattern c
  | SlotController => controller_pattern c
  end.

Definition set_slot (c : Condition Regex) (s : Slot) (r : option NumericRange)
  : Condition Regex :=
  {| event_pattern := event_pattern c;
     channel_pattern := match s with SlotChannel => r | _ => channel_pattern c end;
     value_pattern := match s with SlotValue => r | _ => value_pattern c end;
     velocity_pattern := match s with SlotVelocity => r | _ => velocity_pattern c end;
     controller_pattern := match s with SlotController => r | _ => controller_pattern c end |}.

(** The field layout of each kind: which predicate applies to which field
    (§4.5). Kinds absent from the table carry no field a predicate applies to. *)
Definition applicable_fields (e : MidiEvent) : list (Slot * Z) :=
  match e with
  | NoteOff ch note vel | NoteOn ch note vel =>
      [(SlotChannel, ch); (SlotValue, note); (SlotVelocity, vel)]
  | PolyphonicAftertouch ch note pressure =>
      [(SlotChannel, ch); (SlotValue, note); (SlotVelocity, pressure)]
  | ControlChange ch control_no value =>
      [(SlotChannel, ch); (SlotController, control_no); (SlotValue, value)]
  | ProgramChange ch program => [(SlotChannel, ch); (SlotValue, program)]
  | ChannelAftertouch ch pressure => [(SlotChannel, ch); (SlotValue, pressure)]
  | PitchBendChange ch value => [(SlotChannel, ch); (SlotValue, value)]
  | SongSelect song_num => [(SlotValue, song_num)]
  | _ => []
  end.

Definition name_matches (c : Condition Regex) (e : MidiEvent) : bool :=
  match event_pattern c with Some p => is_match p (event_name e) | None => true end.

Definition is_system_message (e : MidiEvent) : bool :=
  match e with
  | NoteOff _ _ _ | NoteOn _ _ _ | PolyphonicAftertouch _ _ _ | ControlChange _ _ _
  | ProgramChange _ _ | ChannelAftertouch _ _ | PitchBendChange _ _ => false
  | _ => true
  end.

End RoutingSpec.

Open Scope Z_scope.

(** MIDI 1.0 message lengths in bytes, by status byte (a system-exclusive
    start counts its status byte only; a data byte where a status byte is
    expected counts one byte). *)
Definition midi_message_length (status : Z) : nat :=
  match Z.shiftr status 4 with
  | 8 | 9 | 10 | 11 | 14 => 3
  | 12 | 13 => 2
  | 15 => match Z.land status 15 with
          | 1 | 3 => 2
          | 2 => 3
          | _ => 1
          end
  | _ => 1
  end.

(** The number of bytes [decode_raw_midi] reads, by status byte: three
    for the channel messages with two data bytes, two for those with one,
    two for the system message decoded as a song select (status 0xF2, as
    the system table is looked up with [low nibble + 1]), one otherwise. *)
Definition decode_min_length (status : Z) : nat :=
  match Z.shiftr status 4 with
  | 8 | 9 | 10 | 11 | 14 => 3
  | 12 | 13 => 2
  | 15 => if Z.land status 15 =? 2 then 2 else 1
  | _ => 1
  end.

Section FieldSpec.
Context {Regex : Type} `{RE : RegexEngine Regex}.

(** [default_start] and [default_end]: the [i16] range for an untyped
    token, [0..=255] for a [ch]/[vel]/[ctrl] token. *)
Definition field_defaults (ty : option string) : Z * Z :=
  match ty with None => (i16_MIN, i16_MAX) | Some _ => (u8_MIN, u8_MAX) end.

(** The range a field token denotes: [*] the defaults, [START-END] its
    ends, [>LOWER] from [LOWER+1] and [<UPPER] up to [UPPER-1], an exact
    value itself; the ends of a non-exact token are bounded by the defaults
    ([max] with [default_start], [min] with [default_end]). [None] when a
    number is not an [i16], or when [LOWER+1] or [UPPER-1] leaves it. *)
Definition token_range (caps : Captures) : option (Z * Z) :=
  let '(ds, de) := field_defaults (cap_type caps) in
  match cap_wildcard caps, cap_start caps, cap_end caps, cap_lower_bound caps,
        cap_upper_bound caps, cap_exact_value caps with
  | Some _, None, None, None, None, None => Some (ds, de)
  | None, Some a, Some b, None, None, None =>
      match parse_i16 a, parse_i16 b with
      | Some A, Some B => Some (Z.max A ds, Z.min B de)
      | _, _ => None
      end
  | None, None, None, Some l, None, None =>
      match parse_i16 l with
      | Some L => if L <? i16_MAX then Some (Z.max (L + 1) ds, de) else None
      | None => None
      end
  | None, None, None, None, Some u, None =>
      match parse_i16 u with
      | Some U => if i16_MIN <? U then Some (ds, Z.min (U - 1) de) else None
      | None => None
      end
  | None, None, None, None, None, Some n => option_map (fun N => (N, N)) (parse_i16 n)
  | _, _, _, _, _, _ => None
  end.

Definition field_bounds (f : Field Regex) : option (Z * Z) :=
  match f with
  | NameField _ => None
  | ValueField s e | ChannelField s e | VelocityField s e | ControlNoField s e => Some (s, e)
  end.

(** The outcome §4.2 gives a numeric token of type [ty] with range
    [[st, en]]: the range, unless the token is typed and the range is not
    within [0 <= st <= en <= 255], which is an out-of-range error. *)
Definition range_outcome (ty : option string) (st en : Z)
  (r : outcome (Field Regex) FieldParseError) : Prop :=
  match r with
  | Ok f => field_bounds f = Some (st, en) /\ (ty = None \/ (0 <= st /\ st <= en /\ en <= 255))
  | Err e => ty <> None /\ ~ (0 <= st /\ st <= en /\ en <= 255) /\ reason e = NumberOutOfRange 0 255
  | Panic => False
  end.

(** The field built for a token of type [ty] (the type text as written). *)
Definition field_kind (ty : option string) (st en : Z) : Field Regex :=
  match ty with
  | None => ValueField st en
  | Some m =>
      if String.eqb m "ch" then ChannelField st en
      else if String.eqb m "vel" then VelocityField st en
      else if String.eqb m "ctrl" then ControlNoField st en
      else ValueField st en
  end.

Definition groups_shape (g : Captures) : Prop :=
  g = caps_wildcard \/ (exists a b, g = caps_range a b) \/ (exists l, g = caps_lower l) \/
  (exists u, g = caps_upper u) \/ (exists n, g = caps_exact n).

End FieldSpec.

Section LineSpec.
Context {Regex : Type} `{RE : RegexEngine Regex}.
Variable ovf : OverflowMode.

(** The tokens after the first [=>] of a token list (none if it has no
    [=>]). *)
Fixpoint after_separator (tokens : list string) : list string :=
  match tokens with
  | [] => []
  | t :: ts => if String.eqb t FORWARD_SYMBOL then ts else after_separator ts
  end.

Definition not_separator (t : string) : bool := negb (String.eqb t FORWARD_SYMBOL).

(** The non-blank lines of a file, trimmed, each with its 0-based number
    among all the lines of the file (blank lines counted). *)
Fixpoint numbered_lines (n : nat) (lines : list string) : list (nat * string) :=
  match lines with
  | [] => []
  | l :: rest =>
      if String.eqb (trim l) "" then numbered_lines (S n) rest
      else (n, trim l) :: numbered_lines (S n) rest
  end.

(** The errors of the left-hand-side tokens (those before the first [=>]),
    in order, the token numbered [i] checked as field [i]. *)
Fixpoint lhs_errors (i : nat) (tokens : list string) : list FieldParseError :=
  match tokens with
  | [] => []
  | t :: ts =>
      if String.eqb t FORWARD_SYMBOL then []
      else (match parse_field_lhs (Regex:=Regex) ovf i t with Err e => [e] | _ => [] end
            ++ lhs_errors (S i) ts)%list
  end.

Definition invalid_fields_of (line : string) : list FieldParseError :=
  lhs_errors 0 (split_whitespace (trim line)).





End LineSpec.

(** A file of five lines, the second blank, three of them malformed. *)
Definition example_config : list string :=
  ["note-on ch300 => out"; "   "; "note-off vel-5 ctrl>x => a"; "note-on ch1 => b";
   "pitch-bend ch0-20 vel300 => c"].

(** The number of occurrences of the character [c] in [s]. *)
Fixpoint count_char (c : ascii) (s : string) : nat :=
  match s with
  | EmptyString => 0%nat
  | String x r => ((if Ascii.eqb x c then 1 else 0) + count_char c r)%nat
  end.

Section JackSpec.
Context {Regex : Type} `{RE : RegexEngine Regex}.
Variable ovf : OverflowMode.
Variable JackError : Type.
Variable register_port : string -> option JackError.
Local Open Scope list_scope.

Definition registered (p : string) : bool :=
  match register_port p with None => true | Some _ => false end.

(** The errors of the ports that fail to register, in the order the ports
    are visited. *)
Definition registration_errors (names : list string) : list JackError :=
  flat_map (fun p => match register_port p with Some err => [err] | None => [] end) names.

(** The writes of one event: the raw event, unchanged, to each of the
    ports [names] that has a writer, in order. *)
Definition delivered (writers : list string) (raw : RawMidi) (names : list string)
  : list (string * RawMidi) :=
  map (fun p => (p, raw)) (filter (fun p => existsb (String.eqb p) writers) names).

(** The writes of a cycle: those of each input event that decodes, in
    order; an event that does not decode gives none. *)
Definition cycle_writes (t : RoutingTable Regex) (writers : list string) (inputs : list RawMidi)
  : list (string * RawMidi) :=
  flat_map (fun raw => match decode_raw_midi ovf (bytes raw) with
                       | Ok ev => delivered writers raw (get_output_ports t ev)
                       | _ => []
                       end) inputs.

End JackSpec.

(** A table of two rules, the second one matching every event, and three
    input events, the second of which does not decode. *)
Definition example_table : RoutingTable string :=
  {| rules := [ {| condition := {| event_pattern := Some "note-on"; channel_pattern := None;
                                   value_pattern := None; velocity_pattern := None;
                                   controller_pattern := None |};
                   actions := [ForwardTo "a"; ForwardTo "b"] |};
                {| condition := ConditionBuilder_new; actions := [ForwardTo "a"] |} ] |}.

Definition example_inputs : list RawMidi :=
  [ {| time := 0; bytes := [144; 60; 100] |}; {| time := 1; bytes := [32; 0; 0] |};
    {| time := 2; bytes := [128; 60; 0] |} ].

(** ** Routing: facts and claims *)

Open Scope string_scope.

Section RoutingFacts.
Context {Regex : Type} `{RE : RegexEngine Regex}.
Local Open Scope list_scope.

Lemma get_ports_from_actions_acc (acts : list Action) (acc : list string) :
  fold_left (fun ports action =>
               match get_port_from_action action with
               | Some port => ports ++ [port]
               | None => ports
               end) acts acc = acc ++ map action_port acts.
Proof.
  revert acc; induction acts as [|[p] acts IH]; intros acc; simpl.
  - now rewrite app_nil_r.
  - rewrite IH, <- app_assoc; reflexivity.
Qed.

Lemma get_ports_from_actions_map (acts : list Action) :
  get_ports_from_actions acts = map action_port acts.
Proof. apply get_ports_from_actions_acc. Qed.

Lemma get_output_ports_acc (rs : list (Rule Regex)) (e : MidiEvent) (acc : list string) :
  fold_left (fun ports rule =>
               if matches (condition rule) e
               then ports ++ get_ports_from_actions (actions rule)
               else ports) rs acc
  = acc ++ routed_ports {| rules := rs |} e.
Proof.
  revert acc; induction rs as [|r rs IH]; intros acc; simpl.
  - now rewrite app_nil_r.
  - rewrite IH; unfold routed_ports; simpl.
    destruct (matches (condition r) e);
      rewrite ?get_ports_from_actions_map; simpl; rewrite ?app_assoc, ?app_nil_r; reflexivity.
Qed.

Lemma match_range_forall (c : Condition Regex) (l : list (Slot * Z)) :
  forallb (fun sv => match_range (slot_pattern c (fst sv)) (snd sv)) l = true <->
  Forall (fun sv => match_range (slot_pattern c (fst sv)) (snd sv) = true) l.
Proof.
  rewrite forallb_forall, Forall_forall; reflexivity.
Qed.

(** [matches] is the name test followed by the table of applicable fields. *)
Lemma matches_table (c : Condition Regex) (e : MidiEvent) :
  matches c e = name_matches c e &&
    forallb (fun sv => match_range (slot_pattern c (fst sv)) (snd sv)) (applicable_fields e).
Proof.
  unfold matches, name_matches, match_channel, match_value_u8, match_value,
    match_velocity, match_control_no.
  destruct (match event_pattern c with Some p => _ | None => true end); [|reflexivity].
  destruct e; simpl; rewrite ?andb_true_r; try reflexivity;
    repeat match goal with |- context [match_range ?r ?v] => destruct (match_range r v) end;
    reflexivity.
Qed.

Lemma forallb_set_slot (c : Condition Regex) (s : Slot) (r : option NumericRange)
  (l : list (Slot * Z)) :
  ~ In s (map fst l) ->
  forallb (fun sv => match_range (slot_pattern (set_slot c s r) (fst sv)) (snd sv)) l
  = forallb (fun sv => match_range (slot_pattern c (fst sv)) (snd sv)) l.
Proof.
  induction l as [|[s' v] l IH]; intros Hn; simpl in *; [reflexivity|].
  rewrite IH by tauto.
  f_equal; f_equal.
  destruct s, s'; simpl; try reflexivity; exfalso; tauto.
Qed.

End RoutingFacts.

(** ** Routing: the claims *)

Section RoutingClaims.
Context {Regex : Type} `{RE : RegexEngine Regex}.
Local Open Scope list_scope.

(** C1: [get_output_ports] returns the output ports of every rule whose
    condition matches the event, concatenated in rule order and, within a
    rule, in action order; duplicates are kept and a matching rule does not
    stop later rules from contributing. *)
Theorem get_output_ports_all_matching (t : RoutingTable Regex) (e : MidiEvent) :
  get_output_ports t e = routed_ports t e.
Proof.
  unfold get_output_ports; rewrite get_output_ports_acc; destruct t; reflexivity.
Qed.

(** C2: [Condition::matches] holds exactly when the name pattern, if any,
    matches the event's kind name and every numeric predicate that applies
    to a field of the event's kind holds on that field; a predicate that
    applies to no field of the kind is ignored (changing it never changes
    the result). *)
Theorem matches_iff_applicable (c : Condition Regex) (e : MidiEvent) :
  (matches c e = true <->
     name_matches c e = true /\
     Forall (fun sv => match_range (slot_pattern c (fst sv)) (snd sv) = true)
            (applicable_fields e)) /\
  (forall (s : Slot) (r : option NumericRange),
     ~ In s (map fst (applicable_fields e)) ->
     matches (set_slot c s r) e = matches c e).
Proof.
  split.
  - rewrite matches_table, andb_true_iff, match_range_forall; reflexivity.
  - intros s r Hs; rewrite !matches_table, forallb_set_slot by exact Hs.
    reflexivity.
Qed.

(** C10: a [SongSelect] event is matched against the value predicate on
    its [song_num] (and on nothing else besides the name), so a condition
    that every other system message satisfies can reject it. *)
Theorem song_select_checks_value :
  (forall (c : Condition Regex) (n : Z),
     matches c (SongSelect n) = name_matches c (SongSelect n) && match_range (value_pattern c) n) /\
  (exists c : Condition Regex,
     matches c (SongSelect 5) = false /\
     forall e, is_system_message e = true -> (forall n, e <> SongSelect n) -> matches c e = true).
Proof.
  split.
  - intros c n; rewrite matches_table; simpl; rewrite andb_true_r; reflexivity.
  - exists {| event_pattern := None; channel_pattern := None;
              value_pattern := Some {| start := 0; end_ := 0 |};
              velocity_pattern := None; controller_pattern := None |}.
    split; [reflexivity|].
    intros e Hsys Hne; destruct e; simpl in Hsys; try discriminate; try reflexivity.
    exfalso; exact (Hne song_num eq_refl).
Qed.

End RoutingClaims.

(** The routing test of routing.rs, with three rules matching a note-off. *)
Example get_output_ports_nine :
  get_output_ports
    {| rules :=
         [ {| condition := {| event_pattern := Some "note-off"; channel_pattern := None;
                              value_pattern := None; velocity_pattern := None;
                              controller_pattern := None |};
              actions := [ForwardTo "x"; ForwardTo "xx"; ForwardTo "xxx"] |};
           {| condition := {| event_pattern := Some "off"; channel_pattern := None;
                              value_pattern := None; velocity_pattern := None;
                              controller_pattern := None |};
              actions := [ForwardTo "a"; ForwardTo "b"; ForwardTo "c"] |};
           {| condition := {| event_pattern := Some "note"; channel_pattern := None;
                              value_pattern := None; velocity_pattern := None;
                              controller_pattern := None |};
              actions := [ForwardTo "x"; ForwardTo "y"; ForwardTo "z"] |} ] |}
    (NoteOff 0 0 0)
  = ["x"; "xx"; "xxx"; "a"; "b"; "c"; "x"; "y"; "z"].
Proof. reflexivity. Qed.

(** ** Decoder: arithmetic and the claims *)

Open Scope Z_scope.

Lemma wrap_i16_small (z : Z) : i16_MIN <= z <= i16_MAX -> wrap_i16 z = z.
Proof.
  unfold wrap_i16, i16_MIN, i16_MAX; intros H.
  rewrite Z.mod_small by lia; lia.
Qed.

Lemma wrap_i16_add_l (x y : Z) : wrap_i16 (wrap_i16 x + y) = wrap_i16 (x + y).
Proof.
  unfold wrap_i16.
  replace ((x + 32768) mod 65536 - 32768 + y + 32768) with ((x + 32768) mod 65536 + y) by lia.
  rewrite Zplus_mod_idemp_l.
  f_equal; f_equal; lia.
Qed.

Lemma i16_shl_7 (b : Z) : 0 <= b < 256 -> i16_shl b 7 = b * 128.
Proof.
  intros H; unfold i16_shl.
  rewrite Z.shiftl_mul_pow2 by lia.
  apply wrap_i16_small; unfold i16_MIN, i16_MAX; simpl; lia.
Qed.

(** The pitch-bend arithmetic of [decode_raw_midi]: it computes
    [(b2 << 7) + b1 - 8192] whenever it does not overflow. *)
Lemma pitch_bend_arith {A E} (ovf : OverflowMode) (b1 b2 : Z) (k : Z -> outcome A E) :
  0 <= b1 < 256 -> 0 <= b2 < 256 ->
  (ovf = Wrapping \/ b2 * 128 + b1 <= i16_MAX) ->
  (let! v := i16_add ovf (i16_shl b2 7) b1 in
   let! value := i16_add ovf v MIN_PITCHWHEEL in k value)
  = k (b2 * 128 + b1 - 8192).
Proof.
  intros H1 H2 Hovf; rewrite i16_shl_7 by exact H2.
  unfold i16_add, MIN_PITCHWHEEL, in_i16, i16_MIN, i16_MAX in *.
  destruct ovf.
  - destruct Hovf as [Hovf|Hovf]; [discriminate|].
    replace ((-32768 <=? b2 * 128 + b1) && (b2 * 128 + b1 <=? 32767)) with true
      by (symmetry; apply andb_true_iff; split; apply Z.leb_le; lia).
    replace ((-32768 <=? b2 * 128 + b1 + -8192) && (b2 * 128 + b1 + -8192 <=? 32767)) with true
      by (symmetry; apply andb_true_iff; split; apply Z.leb_le; lia).
    f_equal; lia.
  - rewrite wrap_i16_add_l, wrap_i16_small by (unfold i16_MIN, i16_MAX; lia).
    f_equal; lia.
Qed.

(** A byte splits into its status nibble and its low nibble. *)
Lemma byte_nibbles (b : Z) :
  0 <= b < 256 ->
  Z.shiftr b 4 = b / 16 /\ Z.land b 15 = b mod 16 /\ 0 <= b / 16 < 16 /\ 0 <= b mod 16 < 16.
Proof.
  intros H.
  rewrite Z.shiftr_div_pow2 by lia.
  change 15 with (Z.ones 4); rewrite Z.land_ones by lia.
  change (2 ^ 4) with 16.
  repeat split; try lia.
  - apply Z.div_pos; lia.
  - apply Z.div_lt_upper_bound; lia.
  - apply Z.mod_pos_bound; lia.
  - apply Z.mod_pos_bound; lia.
Qed.

Ltac cases_0_15 x :=
  let H := fresh in
  assert (H : x = 0 \/ x = 1 \/ x = 2 \/ x = 3 \/ x = 4 \/ x = 5 \/ x = 6 \/ x = 7 \/
              x = 8 \/ x = 9 \/ x = 10 \/ x = 11 \/ x = 12 \/ x = 13 \/ x = 14 \/ x = 15)
    by lia;
  repeat destruct H as [H|H]; rewrite H in *.

Ltac destruct_atomic_match :=
  match goal with
  | H : context[match ?x with _ => _ end] |- _ =>
      lazymatch x with
      | context[match _ with _ => _ end] => fail
      | _ => destruct x eqn:?
      end
  end.

(** The only error of [decode_raw_midi] is an unknown event kind, for the
    status nibbles below 8. *)
Lemma decode_err_iff (ovf : OverflowMode) (b0 : Z) (rest : list Z) (e : DecodeError) :
  0 <= b0 < 256 ->
  decode_raw_midi ovf (b0 :: rest) = Err e <->
  Z.shiftr b0 4 < 8 /\ e = UnknownEventKind (Z.shiftr b0 4).
Proof.
  intros Hb; destruct (byte_nibbles b0 Hb) as (Hhi & Hlo & Rhi & Rlo).
  unfold decode_raw_midi; cbn [nth_error]; rewrite Hhi, Hlo.
  split.
  - intros H; cases_0_15 (b0 / 16);
      try (injection H as <-; split; [lia|reflexivity]);
      try (cases_0_15 (b0 mod 16)); cbn in H;
      repeat (destruct_atomic_match; try discriminate); discriminate.
  - intros [Hlt ->]; cases_0_15 (b0 / 16); try lia; reflexivity.
Qed.

(** In a build with overflow checks, a pitch bend panics exactly when
    its 14-bit value [(b2 << 7) + b1] leaves [i16], i.e. when [b2 = 255]
    and [b1 >= 128]. *)
Lemma pitch_bend_checked_panic_iff (b0 b1 b2 : Z) (rest : list Z) :
  0 <= b1 < 256 -> 0 <= b2 < 256 -> Z.shiftr b0 4 = 14 ->
  decode_raw_midi Checked (b0 :: b1 :: b2 :: rest) = Panic <-> b2 = 255 /\ 128 <= b1.
Proof.
  intros H1 H2 Hnib; unfold decode_raw_midi; cbn [nth_error]; rewrite Hnib.
  destruct (Z_le_gt_dec (b2 * 128 + b1) i16_MAX) as [Hle|Hgt].
  - rewrite (pitch_bend_arith Checked b1 b2 (fun v => Ok (PitchBendChange (Z.land b0 15 + 1) v)))
      by (first [assumption | right; assumption]).
    split; [discriminate | intros [-> ?]; unfold i16_MAX in Hle; lia].
  - rewrite i16_shl_7 by exact H2.
    replace (i16_add Checked (b2 * 128) b1) with (@None Z).
    + split; [intros _; unfold i16_MAX in Hgt; lia | reflexivity].
    + unfold i16_add, in_i16.
      replace ((i16_MIN <=? b2 * 128 + b1) && (b2 * 128 + b1 <=? i16_MAX)) with false;
        [reflexivity|].
      symmetry; apply andb_false_iff; right; apply Z.leb_gt; lia.
Qed.

(** Whenever no pitch-bend addition overflows, [decode_raw_midi] panics
    exactly on the empty slice and on a slice shorter than the bytes it
    reads. *)
Lemma decode_panic_iff_short (ovf : OverflowMode) (bytes : list Z) :
  Forall (fun b => 0 <= b < 256) bytes ->
  (ovf = Wrapping \/ Forall (fun b => b < 128) (tl bytes)) ->
  decode_raw_midi ovf bytes = Panic <->
  (match bytes with [] => True | b0 :: _ => List.length bytes < decode_min_length b0 end)%nat.
Proof.
  intros Hu8 Hovf; destruct bytes as [|b0 rest]; [split; [intros _; exact I | reflexivity]|].
  inversion Hu8 as [|? ? Hb0 Hrest]; subst.
  destruct (byte_nibbles b0 Hb0) as (Hhi & Hlo & Rhi & Rlo).
  unfold decode_min_length, decode_raw_midi; cbn [nth_error].
  rewrite Hhi, Hlo in *.
  cases_0_15 (b0 / 16); try (cases_0_15 (b0 mod 16));
    destruct rest as [|b1 [|b2 rest]]; cbn -[i16_add i16_shl MIN_PITCHWHEEL];
    try (split; intros Hx; first [discriminate Hx | lia | exfalso; lia | reflexivity]).
  all: inversion Hrest as [|? ? Hb1 Hrest2]; subst; inversion Hrest2 as [|? ? Hb2 _]; subst;
    match goal with
    | |- context [Ok (PitchBendChange ?ch _)] =>
        rewrite (pitch_bend_arith ovf b1 b2 (fun v => Ok (PitchBendChange ch v)))
          by (first [ assumption
                    | destruct Hovf as [Hovf|Hovf]; [left; exact Hovf|];
                      right; inversion Hovf as [|? ? Hc1 Hr]; inversion Hr; subst;
                      unfold i16_MAX; lia ])
    end;
    split; intros Hx; [discriminate Hx | lia].
Qed.

(** C3: a message whose status nibble is 0xE decodes to a pitch bend on
    channel [low nibble + 1] with value [(byte2 << 7) + byte1 - 8192]
    (in a build with overflow checks, for the inputs whose 14-bit value
    [(byte2 << 7) + byte1] fits [i16], which every pair of MIDI data bytes
    below 128 does); in a build with overflow checks every other input,
    i.e. every one with [byte2 = 255] and [byte1 >= 128], panics. *)
Theorem decode_pitch_bend (ovf : OverflowMode) (b0 b1 b2 : Z) (rest : list Z) :
  0 <= b0 < 256 -> 0 <= b1 < 256 -> 0 <= b2 < 256 ->
  Z.shiftr b0 4 = 14 ->
  ((ovf = Wrapping \/ b2 * 128 + b1 <= i16_MAX) ->
   decode_raw_midi ovf (b0 :: b1 :: b2 :: rest)
   = Ok (PitchBendChange (Z.land b0 15 + 1) (b2 * 128 + b1 - 8192))) /\
  (ovf = Checked ->
   (decode_raw_midi ovf (b0 :: b1 :: b2 :: rest) = Panic <-> b2 = 255 /\ 128 <= b1)).
Proof.
  intros H0 H1 H2 Hnib; split.
  - intros Hovf.
    unfold decode_raw_midi; cbn [nth_error]; rewrite Hnib.
    apply (pitch_bend_arith ovf b1 b2 (fun v => Ok (PitchBendChange (Z.land b0 15 + 1) v)));
      assumption.
  - intros ->; apply pitch_bend_checked_panic_iff; assumption.
Qed.

Lemma decode_pitch_bend_witness :
  decode_raw_midi Checked [230; 66; 123] = Ok (PitchBendChange 7 7618) /\
  (decode_raw_midi Checked [224; 128; 255] = Panic <-> 255 = 255 /\ 128 <= 128).
Proof.
  split.
  - apply (proj1 (decode_pitch_bend Checked 230 66 123 [] ltac:(lia) ltac:(lia) ltac:(lia)
                    eq_refl)).
    right; unfold i16_MAX; lia.
  - apply (proj2 (decode_pitch_bend Checked 224 128 255 [] ltac:(lia) ltac:(lia) ltac:(lia)
                    eq_refl)).
    reflexivity.
Defined.

(** The pitch-bend tests of midi.rs, in both builds. *)
Example decode_pitch_bend_tests :
  forall ovf,
    decode_raw_midi ovf [230; 66; 123] = Ok (PitchBendChange 7 7618) /\
    decode_raw_midi ovf [230; 66; 28] = Ok (PitchBendChange 7 (-4542)) /\
    decode_raw_midi ovf [230; 127; 127] = Ok (PitchBendChange 7 8191) /\
    decode_raw_midi ovf [230; 0; 0] = Ok (PitchBendChange 7 (-8192)) /\
    decode_raw_midi ovf [230; 0; 64] = Ok (PitchBendChange 7 0).
Proof. intros []; repeat split; reflexivity. Qed.

(** C4: [decode_raw_midi] fails exactly on the status nibbles below 8,
    with an error carrying the nibble; but the system-message table is
    looked up with the 1-based channel number instead of the low nibble,
    so 0xF5 (undefined in MIDI) decodes as a tune request, 0xF9 as start,
    0xFD as active sensing, 0xF0 as a time-code quarter frame and 0xF8
    (timing clock) as undefined. *)
Theorem decode_system_table_shifted (ovf : OverflowMode) :
  (forall (b0 : Z) (rest : list Z) (e : DecodeError),
     0 <= b0 < 256 ->
     decode_raw_midi ovf (b0 :: rest) = Err e <->
     Z.shiftr b0 4 < 8 /\ e = UnknownEventKind (Z.shiftr b0 4)) /\
  decode_raw_midi ovf [245; 0; 0] = Ok TuneRequest /\
  decode_raw_midi ovf [249; 0; 0] = Ok Start /\
  decode_raw_midi ovf [253; 0; 0] = Ok ActiveSensing /\
  decode_raw_midi ovf [240; 0; 0] = Ok MidiTimeCodeQtrFrame /\
  decode_raw_midi ovf [248; 0; 0] = Ok Undefined.
Proof.
  split; [intros b0 rest e; apply decode_err_iff|].
  repeat split; reflexivity.
Qed.

(** C9: [decode_raw_midi] indexes the slice without a length check. It
    returns normally on every message at least as long as its MIDI message
    length (so on every message of three bytes or more); in a build with
    overflow checks this is for messages whose data bytes are below 128. It
    panics on the empty slice and on a one-byte note-on. More precisely,
    under the same conditions it panics exactly on the empty slice and on
    a slice shorter than the bytes it reads ([decode_min_length]), so the
    one-byte messages 0xF1 and 0xF3, whose MIDI lengths are two, decode; in
    a build with overflow checks a pitch bend of three bytes or more panics
    exactly when [byte2 = 255] and [byte1 >= 128]. *)
Theorem decode_total_iff_long_enough :
  (forall (ovf : OverflowMode) (bytes : list Z),
     Forall (fun b => 0 <= b < 256) bytes ->
     (ovf = Wrapping \/ Forall (fun b => b < 128) (tl bytes)) ->
     (match bytes with [] => False | b0 :: _ => midi_message_length b0 <= List.length bytes end)%nat ->
     decode_raw_midi ovf bytes <> Panic) /\
  (forall (ovf : OverflowMode) (bytes : list Z),
     Forall (fun b => 0 <= b < 256) bytes ->
     (ovf = Wrapping \/ Forall (fun b => b < 128) (tl bytes)) ->
     (3 <= List.length bytes)%nat ->
     decode_raw_midi ovf bytes <> Panic) /\
  (forall ovf : OverflowMode,
     decode_raw_midi ovf [] = Panic /\ decode_raw_midi ovf [144] = Panic) /\
  (forall (ovf : OverflowMode) (bytes : list Z),
     Forall (fun b => 0 <= b < 256) bytes ->
     (ovf = Wrapping \/ Forall (fun b => b < 128) (tl bytes)) ->
     decode_raw_midi ovf bytes = Panic <->
     (match bytes with [] => True | b0 :: _ => List.length bytes < decode_min_length b0 end)%nat) /\
  (forall (b0 b1 b2 : Z) (rest : list Z),
     0 <= b1 < 256 -> 0 <= b2 < 256 -> Z.shiftr b0 4 = 14 ->
     decode_raw_midi Checked (b0 :: b1 :: b2 :: rest) = Panic <-> b2 = 255 /\ 128 <= b1) /\
  (forall ovf : OverflowMode,
     decode_raw_midi ovf [241] = Ok SongPositionPointer /\
     decode_raw_midi ovf [243] = Ok Undefined).
Proof.
  assert (Hmain : forall (ovf : OverflowMode) (bytes : list Z),
     Forall (fun b => 0 <= b < 256) bytes ->
     (ovf = Wrapping \/ Forall (fun b => b < 128) (tl bytes)) ->
     (match bytes with [] => False | b0 :: _ => midi_message_length b0 <= List.length bytes end)%nat ->
     decode_raw_midi ovf bytes <> Panic).
  { intros ovf [|b0 rest] Hu8 Hovf Hlen; [contradiction|].
    inversion Hu8 as [|? ? Hb0 Hrest]; subst.
    destruct (byte_nibbles b0 Hb0) as (Hhi & Hlo & Rhi & Rlo).
    unfold midi_message_length in Hlen; unfold decode_raw_midi; cbn [nth_error].
    rewrite Hhi, Hlo in *.
    cases_0_15 (b0 / 16); try (cases_0_15 (b0 mod 16));
      destruct rest as [|b1 [|b2 rest]]; cbn in Hlen; try lia; try discriminate;
      cbn -[i16_add i16_shl MIN_PITCHWHEEL]; try discriminate.
    (* the pitch bends, with three bytes or more *)
    all: inversion Hrest as [|? ? Hb1 Hrest2]; subst; inversion Hrest2 as [|? ? Hb2 _]; subst;
      match goal with
      | |- context [Ok (PitchBendChange ?ch _)] =>
          rewrite (pitch_bend_arith ovf b1 b2 (fun v => Ok (PitchBendChange ch v)))
            by (first [ assumption
                      | destruct Hovf as [Hovf|Hovf]; [left; exact Hovf|];
                        right; inversion Hovf as [|? ? Hc1 Hr]; inversion Hr; subst;
                        unfold i16_MAX; lia ])
      end;
      discriminate. }
  split; [exact Hmain|split].
  - intros ovf bytes Hu8 Hovf Hlen; apply Hmain; try assumption.
    destruct bytes as [|b0 rest]; [simpl in Hlen; lia|].
    assert (midi_message_length b0 <= 3)%nat.
    { unfold midi_message_length.
      destruct (Z.shiftr b0 4) as [|p|p]; try lia.
      repeat (destruct p as [p|p|]; try lia);
        destruct (Z.land b0 15) as [|q|q]; try lia; repeat (destruct q as [q|q|]; try lia). }
    lia.
  - split; [intros ovf; split; reflexivity|].
    split; [exact decode_panic_iff_short|].
    split; [exact pitch_bend_checked_panic_iff|].
    intros ovf; split; reflexivity.
Qed.

Lemma decode_total_iff_long_enough_witness :
  decode_raw_midi Checked [144; 60; 100] <> Panic.
Proof.
  apply (proj1 decode_total_iff_long_enough Checked [144; 60; 100]).
  - repeat constructor; lia.
  - right; repeat constructor; lia.
  - vm_compute; lia.
Defined.

(** C3 does not hold for every three bytes: with overflow checks, the
    pitch bend [0xE0, 128, 255] overflows [i16] in [(255 << 7) + 128] and
    panics instead of decoding. *)
Lemma decode_pitch_bend_counterexample :
  decode_raw_midi Checked [224; 128; 255] = Panic.
Proof. reflexivity. Defined.

(** C9 does not hold for every long enough input: with overflow checks,
    the three-byte pitch bend [0xE6, 200, 255] panics on overflow. *)
Lemma decode_long_enough_counterexample :
  (3 <= List.length [230; 200; 255])%nat /\ decode_raw_midi Checked [230; 200; 255] = Panic.
Proof. split; [repeat constructor | reflexivity]. Defined.

(** ** Field grammar: the ranges of §4.2 *)

Section FieldFacts.
Context {Regex : Type} `{RE : RegexEngine Regex}.

Ltac destruct_in H :=
  repeat match type of H with
         | context [match ?x with _ => _ end] => destruct x
         end.

Ltac alt_shape :=
  let H := fresh in
  intros H; destruct_in H; try discriminate; injection H as <-; unfold groups_shape; eauto 10.

Lemma field_body_groups_shape (s : string) (g : Captures) :
  field_body_groups s = Some g -> groups_shape g.
Proof.
  unfold field_body_groups, or_else; cbv beta.
  destruct (alt_wildcard s) as [g1|] eqn:E1;
    [intros [= <-]; revert E1; unfold alt_wildcard; alt_shape|].
  destruct (alt_range s) as [g2|] eqn:E2;
    [intros [= <-]; revert E2; unfold alt_range; alt_shape|].
  destruct (alt_lower s) as [g3|] eqn:E3;
    [intros [= <-]; revert E3; unfold alt_lower; alt_shape|].
  destruct (alt_upper s) as [g4|] eqn:E4;
    [intros [= <-]; revert E4; unfold alt_upper; alt_shape|].
  unfold alt_exact; alt_shape.
Qed.

Lemma strip_prefix_ci_nonempty (pc : ascii) (pr s m rest : string) :
  strip_prefix_ci (String pc pr) s = Some (m, rest) -> m <> EmptyString.
Proof.
  destruct s as [|c r]; simpl; [discriminate|].
  destruct (Ascii.eqb (ascii_to_lower c) pc); [|discriminate].
  destruct (strip_prefix_ci pr r) as [[m' rest']|]; [|discriminate].
  intros H; injection H as <- _; discriminate.
Qed.

Lemma field_pat_captures_form (s : string) (caps : Captures) :
  field_pat_captures s = Some caps ->
  exists ty g, caps = set_type ty g /\ groups_shape g /\ ty <> Some EmptyString.
Proof.
  assert (Hp : forall p c, p <> EmptyString -> with_type p s = Some c ->
            exists ty g, c = set_type ty g /\ groups_shape g /\ ty <> Some EmptyString).
  { intros [|pc pr] c Hne; [congruence|]; unfold with_type, field_body.
    destruct (strip_prefix_ci (String pc pr) s) as [[m rest]|] eqn:E; [|discriminate].
    destruct (field_body_groups rest) as [g|] eqn:G; [|discriminate].
    intros [= <-]; exists (Some m), g; split; [reflexivity|split].
    - exact (field_body_groups_shape _ _ G).
    - intros [= Hm]; exact (strip_prefix_ci_nonempty _ _ _ _ _ E Hm). }
  unfold field_pat_captures, or_else; cbv beta.
  destruct (with_type "ch" s) as [c|] eqn:E1;
    [intros [= <-]; exact (Hp "ch" c ltac:(discriminate) E1)|].
  destruct (with_type "vel" s) as [c|] eqn:E2;
    [intros [= <-]; exact (Hp "vel" c ltac:(discriminate) E2)|].
  destruct (with_type "ctrl" s) as [c|] eqn:E3;
    [intros [= <-]; exact (Hp "ctrl" c ltac:(discriminate) E3)|].
  unfold field_body; destruct (field_body_groups s) as [g|] eqn:G; [|discriminate].
  intros [= <-]; exists None, g; split; [reflexivity|split; [|discriminate]].
  exact (field_body_groups_shape _ _ G).
Qed.

Lemma parse_i16_bounds (s : string) (z : Z) :
  parse_i16 s = Some z -> i16_MIN <= z <= i16_MAX.
Proof.
  intros H; unfold parse_i16 in H; cbv zeta in H.
  lazymatch type of H with
  | (match ?w with Some _ => _ | None => _ end = _) => destruct w as [v|]; [|discriminate]
  end.
  destruct (in_i16 v) eqn:E; [|discriminate].
  injection H as <-; unfold in_i16 in E; apply andb_true_iff in E as [E1 E2].
  apply Z.leb_le in E1, E2; lia.
Qed.

Lemma i16_add_ok (ovf : OverflowMode) (a b : Z) :
  i16_MIN <= a + b <= i16_MAX -> i16_add ovf a b = Some (a + b).
Proof.
  intros H; unfold i16_add; destruct ovf.
  - unfold in_i16; replace ((i16_MIN <=? a + b) && (a + b <=? i16_MAX)) with true; [reflexivity|].
    symmetry; apply andb_true_iff; split; apply Z.leb_le; lia.
  - rewrite wrap_i16_small by exact H; reflexivity.
Qed.

(** The result of [parse_field_lhs] on a numeric token, from its range. *)
Lemma parse_field_lhs_token_range (ovf : OverflowMode) (k : nat) (s : string)
  (caps : Captures) (st en : Z) :
  field_pat_captures s = Some caps ->
  token_range caps = Some (st, en) ->
  parse_field_lhs ovf (S k) s =
    if match cap_type caps with None => false | Some _ => true end
       && negb ((0 <=? st) && (st <=? en) && (en <=? 255))
    then Err {| field_id := S k; content := s; reason := NumberOutOfRange 0 255 |}
    else Ok (field_kind (cap_type caps) st en).
Proof.
  intros Hc Hr.
  destruct (field_pat_captures_form s caps Hc) as (ty & g & -> & Hg & Hty).
  unfold parse_field_lhs; cbn [Nat.eqb]; rewrite Hc.
  assert (Hstr : String.eqb (match ty with Some m => m | None => "" end) "" =
                 match ty with Some _ => false | None => true end).
  { destruct ty as [m|]; [|reflexivity].
    apply String.eqb_neq; intros ->; exact (Hty eq_refl). }
  unfold parse_value_field; cbn [cap_type set_type]; rewrite Hstr.
  destruct Hg as [->|[(a & b & ->)|[(l & ->)|[(u & ->)|(n & ->)]]]];
    unfold token_range in Hr; cbn [cap_type set_type caps_wildcard caps_range caps_lower
      caps_upper caps_exact cap_wildcard cap_start cap_end cap_lower_bound cap_upper_bound
      cap_exact_value] in Hr |- *;
    destruct (field_defaults ty) as [ds de] eqn:Hd.
  - injection Hr as <- <-.
    cbn [bind_outcome]. rewrite Z.max_id, Z.min_id.
    destruct ty; simpl in Hd |- *; injection Hd as <- <-; reflexivity.
  - destruct (parse_i16 a) as [A|] eqn:Ea; [|discriminate].
    destruct (parse_i16 b) as [B|] eqn:Eb; [|discriminate].
    injection Hr as <- <-.
    cbn [bind_outcome].
    destruct ty; simpl in Hd |- *; injection Hd as <- <-; reflexivity.
  - destruct (parse_i16 l) as [L|] eqn:El; [|discriminate].
    destruct (L <? i16_MAX) eqn:Hl; [|discriminate].
    injection Hr as <- <-.
    apply Z.ltb_lt in Hl; pose proof (parse_i16_bounds _ _ El).
    cbn [bind_outcome].
    rewrite i16_add_ok by lia; cbn [bind_outcome].
    rewrite (Z.max_comm (L + 1)), Z.min_id.
    destruct ty; simpl in Hd |- *; injection Hd as <- <-; reflexivity.
  - destruct (parse_i16 u) as [U|] eqn:Eu; [|discriminate].
    destruct (i16_MIN <? U) eqn:Hu; [|discriminate].
    injection Hr as <- <-.
    apply Z.ltb_lt in Hu; pose proof (parse_i16_bounds _ _ Eu).
    cbn [bind_outcome].
    unfold i16_sub; rewrite i16_add_ok by lia; cbn [bind_outcome].
    rewrite (Z.min_comm (U + - 1)), Z.max_id.
    replace (U + - (1)) with (U - 1) by lia.
    destruct ty; simpl in Hd |- *; injection Hd as <- <-; reflexivity.
  - destruct (parse_i16 n) as [N|] eqn:En; [|discriminate].
    injection Hr as <- <-.
    cbn [bind_outcome].
    destruct ty; simpl in Hd |- *; injection Hd as <- <-; reflexivity.
Qed.

(** A numeric token without a range ([token_range] is [None]) fails to
    parse a number, or is [>32767] or [<-32768]: its [LOWER + 1] or
    [UPPER - 1] overflows, which panics in a build with overflow checks and
    wraps to the full default range otherwise. *)
Lemma parse_field_lhs_no_range (ovf : OverflowMode) (k : nat) (s : string)
  (caps : Captures) :
  field_pat_captures s = Some caps ->
  token_range caps = None ->
  (exists e, parse_field_lhs ovf (S k) s = Err e /\ reason e = ParseIntError) \/
  (((exists l, cap_lower_bound caps = Some l /\ parse_i16 l = Some i16_MAX) \/
    (exists u, cap_upper_bound caps = Some u /\ parse_i16 u = Some i16_MIN)) /\
   parse_field_lhs ovf (S k) s =
     match ovf with
     | Checked => Panic
     | Wrapping => Ok (field_kind (cap_type caps) (fst (field_defaults (cap_type caps)))
                         (snd (field_defaults (cap_type caps))))
     end).
Proof.
  intros Hc Hr.
  destruct (field_pat_captures_form s caps Hc) as (ty & g & -> & Hg & Hty).
  unfold parse_field_lhs; cbn [Nat.eqb]; rewrite Hc.
  assert (Hstr : String.eqb (match ty with Some m => m | None => "" end) "" =
                 match ty with Some _ => false | None => true end).
  { destruct ty as [m|]; [|reflexivity].
    apply String.eqb_neq; intros ->; exact (Hty eq_refl). }
  unfold parse_value_field; cbn [cap_type set_type]; rewrite Hstr.
  destruct Hg as [->|[(a & b & ->)|[(l & ->)|[(u & ->)|(n & ->)]]]];
    unfold token_range in Hr; cbn [cap_type set_type caps_wildcard caps_range caps_lower
      caps_upper caps_exact cap_wildcard cap_start cap_end cap_lower_bound cap_upper_bound
      cap_exact_value] in Hr |- *;
    destruct (field_defaults ty) as [ds de] eqn:Hd.
  - discriminate.
  - left; destruct (parse_i16 a) as [A|] eqn:Ea;
      [destruct (parse_i16 b) as [B|] eqn:Eb; [discriminate|]|];
      eexists; split; reflexivity.
  - destruct (parse_i16 l) as [L|] eqn:El; [|left; eexists; split; reflexivity].
    destruct (L <? i16_MAX) eqn:Hl; [discriminate|].
    apply Z.ltb_ge in Hl; pose proof (parse_i16_bounds _ _ El).
    assert (L = i16_MAX) by lia; subst L.
    right; split; [left; exists l; split; [reflexivity|exact El]|].
    destruct ovf, ty; simpl in Hd |- *; injection Hd as <- <-; reflexivity.
  - destruct (parse_i16 u) as [U|] eqn:Eu; [|left; eexists; split; reflexivity].
    destruct (i16_MIN <? U) eqn:Hu; [discriminate|].
    apply Z.ltb_ge in Hu; pose proof (parse_i16_bounds _ _ Eu).
    assert (U = i16_MIN) by lia; subst U.
    right; split; [right; exists u; split; [reflexivity|exact Eu]|].
    destruct ovf, ty; simpl in Hd |- *; injection Hd as <- <-; reflexivity.
  - destruct (parse_i16 n) as [N|] eqn:En; [discriminate|].
    left; eexists; split; reflexivity.
Qed.

Lemma field_bounds_kind (ty : option string) (st en : Z) :
  field_bounds (field_kind (Regex:=Regex) ty st en) = Some (st, en).
Proof.
  destruct ty as [m|]; [|reflexivity]; cbn [field_kind].
  destruct (String.eqb m "ch"), (String.eqb m "vel"), (String.eqb m "ctrl"); reflexivity.
Qed.

Lemma parse_field_lhs_range_outcome (ovf : OverflowMode) (k : nat) (s : string)
  (caps : Captures) (st en : Z) :
  field_pat_captures s = Some caps ->
  token_range caps = Some (st, en) ->
  range_outcome (cap_type caps) st en (parse_field_lhs ovf (S k) s).
Proof.
  intros Hc Hr; rewrite (parse_field_lhs_token_range ovf k s caps st en Hc Hr).
  destruct (cap_type caps) as [m|] eqn:Ht; cbn [andb].
  - destruct ((0 <=? st) && (st <=? en) && (en <=? 255)) eqn:Hb; cbn [negb range_outcome].
    + split; [apply field_bounds_kind|right].
      apply andb_true_iff in Hb as [Hb Hb3]; apply andb_true_iff in Hb as [Hb1 Hb2].
      apply Z.leb_le in Hb1, Hb2, Hb3; lia.
    + split; [discriminate|split; [|reflexivity]].
      intros (H1 & H2 & H3).
      apply Z.leb_le in H1, H2, H3; rewrite H1, H2, H3 in Hb; discriminate.
  - cbn [range_outcome]; split; [apply field_bounds_kind|left; reflexivity].
Qed.

Lemma lower_token_range (s l : string) (caps : Captures) (L : Z) :
  field_pat_captures s = Some caps ->
  cap_lower_bound caps = Some l -> parse_i16 l = Some L -> L < i16_MAX ->
  token_range caps = Some (Z.max (L + 1) (fst (field_defaults (cap_type caps))),
                           snd (field_defaults (cap_type caps))).
Proof.
  intros Hc Hl HL HM.
  destruct (field_pat_captures_form s caps Hc) as (ty & g & -> & Hg & _).
  destruct Hg as [->|[(a & b & ->)|[(l' & ->)|[(u & ->)|(n & ->)]]]];
    cbn in Hl; try discriminate.
  injection Hl as ->; unfold token_range; cbn [cap_type set_type caps_lower cap_wildcard
    cap_start cap_end cap_lower_bound cap_upper_bound cap_exact_value].
  destruct (field_defaults ty) as [ds de]; rewrite HL.
  apply Z.ltb_lt in HM; rewrite HM; reflexivity.
Qed.

Lemma upper_token_range (s u : string) (caps : Captures) (U : Z) :
  field_pat_captures s = Some caps ->
  cap_upper_bound caps = Some u -> parse_i16 u = Some U -> i16_MIN < U ->
  token_range caps = Some (fst (field_defaults (cap_type caps)),
                           Z.min (U - 1) (snd (field_defaults (cap_type caps)))).
Proof.
  intros Hc Hu HU HM.
  destruct (field_pat_captures_form s caps Hc) as (ty & g & -> & Hg & _).
  destruct Hg as [->|[(a & b & ->)|[(l' & ->)|[(u' & ->)|(n & ->)]]]];
    cbn in Hu; try discriminate.
  injection Hu as ->; unfold token_range; cbn [cap_type set_type caps_upper cap_wildcard
    cap_start cap_end cap_lower_bound cap_upper_bound cap_exact_value].
  destruct (field_defaults ty) as [ds de]; rewrite HU.
  apply Z.ltb_lt in HM; rewrite HM; reflexivity.
Qed.

End FieldFacts.

Section FieldClaims.
Context {Regex : Type} `{RE : RegexEngine Regex}.

(** C5: an exclusive bound is adjusted by one and then clamped to the
    defaults of the token: a token [>LOWER] (with [LOWER < i16::MAX]) gives
    the range [[max(LOWER+1, default_start), default_end]] and a token
    [<UPPER] (with [UPPER > i16::MIN]) the range
    [[default_start, min(UPPER-1, default_end)]], then subject to the
    [0..=255] check of typed tokens. So untyped [<300] gives
    [[i16::MIN, 299]], [ctrl>5] gives [[6, 255]], and [ch<300] gives
    [[0, 255]]. *)
Theorem exclusive_bounds_clamped (ovf : OverflowMode) :
  (forall (k : nat) (s l : string) (caps : Captures) (L : Z),
     field_pat_captures s = Some caps ->
     cap_lower_bound caps = Some l -> parse_i16 l = Some L -> L < i16_MAX ->
     range_outcome (cap_type caps) (Z.max (L + 1) (fst (field_defaults (cap_type caps))))
       (snd (field_defaults (cap_type caps))) (parse_field_lhs (Regex:=Regex) ovf (S k) s)) /\
  (forall (k : nat) (s u : string) (caps : Captures) (U : Z),
     field_pat_captures s = Some caps ->
     cap_upper_bound caps = Some u -> parse_i16 u = Some U -> i16_MIN < U ->
     range_outcome (cap_type caps) (fst (field_defaults (cap_type caps)))
       (Z.min (U - 1) (snd (field_defaults (cap_type caps))))
       (parse_field_lhs (Regex:=Regex) ovf (S k) s)) /\
  parse_field_lhs (Regex:=Regex) ovf 1 "<300" = Ok (ValueField i16_MIN 299) /\
  parse_field_lhs (Regex:=Regex) ovf 1 "ctrl>5" = Ok (ControlNoField 6 255) /\
  parse_field_lhs (Regex:=Regex) ovf 1 "ch<300" = Ok (ChannelField 0 255).
Proof.
  split; [|split; [|destruct ovf; vm_compute; repeat split]].
  - intros k s l caps L Hc Hl HL HM.
    apply (parse_field_lhs_range_outcome ovf k s caps).
    + exact Hc.
    + exact (lower_token_range s l caps L Hc Hl HL HM).
  - intros k s u caps U Hc Hu HU HM.
    apply (parse_field_lhs_range_outcome ovf k s caps).
    + exact Hc.
    + exact (upper_token_range s u caps U Hc Hu HU HM).
Qed.

(** C6: the [0 <= start <= end <= 255] check of a typed token applies to
    its range after the exclusive bounds are adjusted and the ends are
    clamped to [[0, 255]] ([token_range]): a typed token fails with
    [NumberOutOfRange 0 255] exactly when that range violates the check,
    and an untyped token is never checked and yields [ValueField] with its
    range. So [ch300] and [vel-5] fail, [-32768-32767] is accepted, and
    [ch-5-10] is accepted as [[0, 10]]. A token with no such range fails
    to parse a number, or is [>32767] or [<-32768]: then the adjustment
    overflows, which panics in a build with overflow checks and gives the
    full default range otherwise ([ch>32767] is accepted as [[0, 255]]). *)
Theorem typed_range_check_after_clamping (ovf : OverflowMode) :
  (forall (k : nat) (s : string) (caps : Captures) (st en : Z),
     field_pat_captures s = Some caps -> token_range caps = Some (st, en) ->
     parse_field_lhs (Regex:=Regex) ovf (S k) s =
       match cap_type caps with
       | Some _ =>
           if (0 <=? st) && (st <=? en) && (en <=? 255)
           then Ok (field_kind (cap_type caps) st en)
           else Err {| field_id := S k; content := s; reason := NumberOutOfRange 0 255 |}
       | None => Ok (ValueField st en)
       end) /\
  parse_field_lhs (Regex:=Regex) ovf 1 "ch300" =
    Err {| field_id := 1; content := "ch300"; reason := NumberOutOfRange 0 255 |} /\
  parse_field_lhs (Regex:=Regex) ovf 1 "vel-5" =
    Err {| field_id := 1; content := "vel-5"; reason := NumberOutOfRange 0 255 |} /\
  parse_field_lhs (Regex:=Regex) ovf 1 "-32768-32767" = Ok (ValueField (-32768) 32767) /\
  parse_field_lhs (Regex:=Regex) ovf 1 "ch-5-10" = Ok (ChannelField 0 10) /\
  (forall (k : nat) (s : string) (caps : Captures),
     field_pat_captures s = Some caps -> token_range caps = None ->
     (exists e, parse_field_lhs (Regex:=Regex) ovf (S k) s = Err e /\ reason e = ParseIntError) \/
     (((exists l, cap_lower_bound caps = Some l /\ parse_i16 l = Some i16_MAX) \/
       (exists u, cap_upper_bound caps = Some u /\ parse_i16 u = Some i16_MIN)) /\
      parse_field_lhs (Regex:=Regex) ovf (S k) s =
        match ovf with
        | Checked => Panic
        | Wrapping => Ok (field_kind (cap_type caps) (fst (field_defaults (cap_type caps)))
                            (snd (field_defaults (cap_type caps))))
        end)) /\
  parse_field_lhs (Regex:=Regex) ovf 1 "ch>32767" =
    match ovf with Checked => Panic | Wrapping => Ok (ChannelField 0 255) end /\
  parse_field_lhs (Regex:=Regex) ovf 1 "<-32768" =
    match ovf with Checked => Panic | Wrapping => Ok (ValueField (-32768) 32767) end.
Proof.
  split.
  { intros k s caps st en Hc Hr.
    rewrite (parse_field_lhs_token_range ovf k s caps st en Hc Hr).
    destruct (cap_type caps); cbn [andb negb field_kind]; [|reflexivity].
    destruct ((0 <=? st) && (st <=? en) && (en <=? 255)); reflexivity. }
  split; [destruct ovf; vm_compute; reflexivity|].
  split; [destruct ovf; vm_compute; reflexivity|].
  split; [destruct ovf; vm_compute; reflexivity|].
  split; [destruct ovf; vm_compute; reflexivity|].
  split; [exact (parse_field_lhs_no_range ovf)|].
  destruct ovf; split; vm_compute; reflexivity.
Qed.

End FieldClaims.

Lemma exclusive_bounds_clamped_witness :
  field_pat_captures "ch<300" = Some (set_type (Some "ch") (caps_upper "300")) /\
  range_outcome (Regex:=string) (Some "ch") 0 255 (parse_field_lhs Checked 1 "ch<300").
Proof.
  split; [vm_compute; reflexivity|].
  apply (proj1 (proj2 (exclusive_bounds_clamped (Regex:=string) Checked))
           0%nat "ch<300" "300" (set_type (Some "ch") (caps_upper "300")) 300);
    vm_compute; reflexivity.
Defined.

(** C5 does not hold as stated: [ch<300] yields [[0, 255]], not
    [[default_start, 300 - 1]], and [ch>-5] yields [[0, 255]], not
    [[-5 + 1, default_end]]; both are accepted. *)
Lemma exclusive_bounds_counterexample :
  (exists f, parse_field_lhs (Regex:=string) Checked 1 "ch<300" = Ok f /\
             field_bounds f <> Some (u8_MIN, 300 - 1)) /\
  (exists f, parse_field_lhs (Regex:=string) Checked 1 "ch>-5" = Ok f /\
             field_bounds f <> Some (-5 + 1, u8_MAX)).
Proof.
  split; eexists; split; [vm_compute; reflexivity| |vm_compute; reflexivity|];
    vm_compute; discriminate.
Defined.

Lemma typed_range_check_after_clamping_witness :
  field_pat_captures "ch-5-10" = Some (set_type (Some "ch") (caps_range "-5" "10")) /\
  token_range (set_type (Some "ch") (caps_range "-5" "10")) = Some (0, 10) /\
  parse_field_lhs (Regex:=string) Wrapping 1 "ch-5-10" = Ok (ChannelField 0 10).
Proof.
  split; [vm_compute; reflexivity|split; [vm_compute; reflexivity|]].
  rewrite (proj1 (typed_range_check_after_clamping (Regex:=string) Wrapping)
             0%nat "ch-5-10" (set_type (Some "ch") (caps_range "-5" "10")) 0 10)
    by (vm_compute; reflexivity).
  vm_compute; reflexivity.
Defined.

(** C6 does not hold as stated: the typed token [ch-5-10] has start [-5]
    yet is accepted, as [[0, 10]]; so is [ch5-300], as [[5, 255]]. *)
Lemma typed_range_check_counterexample :
  parse_field_lhs (Regex:=string) Checked 1 "ch-5-10" = Ok (ChannelField 0 10) /\
  parse_field_lhs (Regex:=string) Checked 1 "ch5-300" = Ok (ChannelField 5 255).
Proof. split; vm_compute; reflexivity. Defined.

Section LineSpecFacts.
Context {Regex : Type} `{RE : RegexEngine Regex}.
Variable ovf : OverflowMode.

Lemma parse_lhs_frame (p p' : RuleParser Regex) (i : nat) (v : string) :
  parse_lhs ovf p i v = Some p' -> output_names p' = output_names p /\ state p' = state p.
Proof.
  unfold parse_lhs; destruct (parse_field_lhs ovf i v) as [[]| |]; intros H;
    try discriminate; injection H as <-; split; reflexivity.
Qed.

Lemma parse_tokens_output_names (tokens : list string) (p p' : RuleParser Regex) (i : nat) :
  parse_tokens ovf p i tokens = Some p' ->
  output_names p' = (output_names p ++
    filter not_separator (match state p with
                          | ParseLeftHandSide => after_separator tokens
                          | ParseRightHandSide => tokens
                          end))%list.
Proof.
  revert p i; induction tokens as [|t ts IH]; intros p i H; cbn [parse_tokens] in H.
  - injection H as <-; destruct (state p); cbn; rewrite app_nil_r; reflexivity.
  - destruct (String.eqb t FORWARD_SYMBOL) eqn:Et.
    + rewrite (IH _ _ H); unfold not_separator.
      cbn [state set_state output_names]; destruct (state p);
        cbn [after_separator filter]; rewrite Et; reflexivity.
    + destruct (state p) eqn:Es.
      * destruct (parse_lhs ovf p i t) as [p''|] eqn:El; [|discriminate].
        destruct (parse_lhs_frame p p'' i t El) as [Hn Hs].
        rewrite (IH _ _ H), Hn, Hs, Es; cbn [after_separator]; rewrite Et; reflexivity.
      * rewrite (IH _ _ H); unfold not_separator.
        cbn [parse_rhs output_names state filter]; rewrite Et; cbn [negb].
        rewrite Es, <- app_assoc; reflexivity.
Qed.

End LineSpecFacts.

Section LineFacts.
Context {Regex : Type} `{RE : RegexEngine Regex}.

Lemma parse_field_lhs_keyed (ovf : OverflowMode) (i : nat) (v : string) (e : FieldParseError) :
  parse_field_lhs (Regex:=Regex) ovf i v = Err e -> field_id e = i /\ content e = v.
Proof.
  intros H; unfold parse_field_lhs, parse_name_pattern_field, parse_value_field,
    bind_outcome in H; cbv zeta in H.
  repeat (destruct_atomic_match; try discriminate; try (injection H as <-; split; reflexivity)).
Qed.


Lemma parse_lhs_errors (ovf : OverflowMode) (p p' : RuleParser Regex) (i : nat) (v : string) :
  parse_lhs ovf p i v = Some p' ->
  rp_errors p' = (rp_errors p ++
    match parse_field_lhs ovf i v with Err e => [e] | _ => [] end)%list /\ state p' = state p.
Proof.
  unfold parse_lhs; destruct (parse_field_lhs ovf i v) as [[]| |]; intros H;
    try discriminate; injection H as <-; cbn; rewrite ?app_nil_r; split; reflexivity.
Qed.


Lemma parse_tokens_errors (ovf : OverflowMode) (tokens : list string)
  (p p' : RuleParser Regex) (i : nat) :
  parse_tokens ovf p i tokens = Some p' ->
  rp_errors p' = (rp_errors p ++
    match state p with
    | ParseLeftHandSide => lhs_errors ovf i tokens
    | ParseRightHandSide => []
    end)%list.
Proof.
  revert p i; induction tokens as [|t ts IH]; intros p i H; cbn [parse_tokens] in H.
  - injection H as <-; destruct (state p); cbn; rewrite app_nil_r; reflexivity.
  - destruct (String.eqb t FORWARD_SYMBOL) eqn:Et.
    + rewrite (IH _ _ H); cbn [state set_state rp_errors lhs_errors]; rewrite Et.
      destruct (state p); reflexivity.
    + destruct (state p) eqn:Es.
      * destruct (parse_lhs ovf p i t) as [p''|] eqn:El; [|discriminate].
        destruct (parse_lhs_errors ovf p p'' i t El) as [He Hs].
        rewrite (IH _ _ H), He, Hs, Es; cbn [lhs_errors]; rewrite Et, app_assoc; reflexivity.
      * rewrite (IH _ _ H); cbn [parse_rhs rp_errors state]; rewrite Es; reflexivity.
Qed.



(** A line that does not panic gives a rule when none of its fields is
    invalid, and otherwise the error of its number listing them all. *)
Lemma parse_rule_shape (ovf : OverflowMode) (n : nat) (line : string) :
  parse_rule (Regex:=Regex) ovf n line <> Panic ->
  match parse_rule (Regex:=Regex) ovf n line with
  | Ok _ => invalid_fields_of (Regex:=Regex) ovf line = []
  | Err e => e = InvalidFields n (invalid_fields_of (Regex:=Regex) ovf line) /\
             invalid_fields_of (Regex:=Regex) ovf line <> []
  | Panic => False
  end.
Proof.
  unfold parse_rule, RuleParser_parse, invalid_fields_of.
  destruct (parse_tokens ovf RuleParser_new 0 (split_whitespace (trim line))) as [p|] eqn:E;
    [|intros H; exact (H eq_refl)].
  intros _; rewrite (parse_tokens_errors ovf _ _ _ _ E); cbn [rp_errors state RuleParser_new app].
  destruct (lhs_errors ovf 0 (split_whitespace (trim line))) as [|e es]; cbn.
  - reflexivity.
  - split; [reflexivity|discriminate].
Qed.




End LineFacts.

Section RuleClaims.
Context {Regex : Type} `{RE : RegexEngine Regex}.

(** C7: every [=>] token of a rule line is consumed as a separator: the
    actions of a parsed rule forward to the tokens after the first [=>]
    that are not [=>] themselves, in order, and no action forwards to a
    port named [=>]. *)
Theorem separators_never_ports (ovf : OverflowMode) (line_no : nat) (line : string)
  (r : Rule Regex) :
  parse_rule ovf line_no line = Ok r ->
  map action_port (actions r) =
    filter not_separator (after_separator (split_whitespace (trim line))) /\
  ~ In (ForwardTo FORWARD_SYMBOL) (actions r).
Proof.
  unfold parse_rule, RuleParser_parse.
  destruct (parse_tokens ovf RuleParser_new 0 (split_whitespace (trim line))) as [p|] eqn:Ep;
    [|discriminate].
  destruct (Nat.ltb 0 (List.length (rp_errors p))); [discriminate|].
  intros H; injection H as <-; cbn [actions].
  rewrite (parse_tokens_output_names ovf _ _ _ _ Ep); cbn [output_names state app].
  rewrite map_map; cbn [action_port]; rewrite map_id.
  split; [reflexivity|].
  intros Hin; apply in_map_iff in Hin as (n & Hn & Hin).
  injection Hn as ->.
  apply filter_In in Hin as [_ Hf]; unfold not_separator in Hf.
  rewrite String.eqb_refl in Hf; discriminate.
Qed.


End RuleClaims.

Lemma separators_never_ports_witness :
  parse_rule (Regex:=string) Checked 0 "note-on => a => b" =
    Ok {| condition := {| event_pattern := Some "note-on"; channel_pattern := None;
                          value_pattern := None; velocity_pattern := None;
                          controller_pattern := None |};
          actions := [ForwardTo "a"; ForwardTo "b"] |} /\
  map action_port [ForwardTo "a"; ForwardTo "b"] =
    filter not_separator (after_separator (split_whitespace (trim "note-on => a => b"))) /\
  ~ In (ForwardTo FORWARD_SYMBOL) [ForwardTo "a"; ForwardTo "b"].
Proof.
  assert (H : parse_rule (Regex:=string) Checked 0 "note-on => a => b" =
    Ok {| condition := {| event_pattern := Some "note-on"; channel_pattern := None;
                          value_pattern := None; velocity_pattern := None;
                          controller_pattern := None |};
          actions := [ForwardTo "a"; ForwardTo "b"] |}) by (vm_compute; reflexivity).
  split; [exact H|].
  exact (separators_never_ports Checked 0 "note-on => a => b" _ H).
Defined.

(** C7 does not hold as stated: in [note-on => a => b] the second [=>]
    gives no action; the actions forward to [a] and [b] only. *)
Lemma separators_never_ports_counterexample :
  exists r, parse_rule (Regex:=string) Checked 0 "note-on => a => b" = Ok r /\
            actions r = [ForwardTo "a"; ForwardTo "b"] /\
            ~ In (ForwardTo "=>") (actions r).
Proof.
  eexists; split; [vm_compute; reflexivity|].
  split; [reflexivity|].
  cbn; intros [H|[H|[]]]; discriminate.
Defined.



Example load_example_config :
  load_rules_from_file (Regex:=string) Checked example_config =
    Err {| errors :=
      [InvalidFields 0 [Build_FieldParseError 1 "ch300" (NumberOutOfRange 0 255)];
       InvalidFields 2 [Build_FieldParseError 1 "vel-5" (NumberOutOfRange 0 255);
                        Build_FieldParseError 2 "ctrl>x" InvalidFormat];
       InvalidFields 4 [Build_FieldParseError 2 "vel300" (NumberOutOfRange 0 255)]] |}.
Proof. vm_compute; reflexivity. Qed.

(** ** utils.rs: [indent] *)

Section IndentFacts.
Local Open Scope string_scope.

Lemma str_app_assoc (x y z : string) : x ++ (y ++ z) = (x ++ y) ++ z.
Proof. induction x as [|a x IH]; cbn; [reflexivity|now rewrite IH]. Qed.

Lemma str_length_app (x y : string) : String.length (x ++ y) = (String.length x + String.length y)%nat.
Proof. induction x as [|a x IH]; cbn; [reflexivity|now rewrite IH]. Qed.

Lemma repeat_str_add (s : string) (a b : nat) :
  repeat_str s (a + b) = repeat_str s a ++ repeat_str s b.
Proof. induction a as [|a IH]; cbn; [reflexivity|now rewrite IH, str_app_assoc]. Qed.

Lemma repeat_str_length (n : nat) : String.length (repeat_str " " n) = n.
Proof. induction n as [|n IH]; cbn; [reflexivity|now rewrite IH]. Qed.

Lemma replace_char_app (c : ascii) (to x y : string) :
  replace_char c to (x ++ y) = replace_char c to x ++ replace_char c to y.
Proof.
  induction x as [|a x IH]; cbn; [reflexivity|].
  destruct (Ascii.eqb a c); rewrite IH; [apply str_app_assoc|reflexivity].
Qed.

Lemma replace_newline_spaces (to : string) (n : nat) :
  replace_char newline to (repeat_str " " n) = repeat_str " " n.
Proof.
  induction n as [|n IH]; cbn [repeat_str String.append replace_char]; [reflexivity|].
  replace (Ascii.eqb " " newline) with false by reflexivity; now rewrite IH.
Qed.

Lemma indent_length_count (s : string) (n : nat) :
  String.length (indent s n) = (String.length s + n * count_char newline s)%nat.
Proof.
  unfold indent; induction s as [|a s IH]; cbn [replace_char count_char]; [cbn; lia|].
  destruct (Ascii.eqb a newline).
  - cbn [String.append String.length]; rewrite str_length_app, repeat_str_length, IH. lia.
  - cbn [String.length]; rewrite IH; lia.
Qed.

Lemma indent_zero (s : string) : indent s 0 = s.
Proof.
  unfold indent; induction s as [|a s IH]; cbn [replace_char]; [reflexivity|].
  destruct (Ascii.eqb a newline) eqn:E; rewrite IH; cbn [repeat_str String.append];
    [|reflexivity].
  apply Ascii.eqb_eq in E; subst; reflexivity.
Qed.

Lemma indent_no_newline (s : string) (n : nat) : count_char newline s = 0%nat -> indent s n = s.
Proof.
  unfold indent; induction s as [|a s IH]; cbn [replace_char count_char]; [reflexivity|].
  destruct (Ascii.eqb a newline); [discriminate|]; cbn [Nat.add]; intros H.
  rewrite IH by exact H; reflexivity.
Qed.

End IndentFacts.

(** X1: [indent s n] returns [s] unchanged exactly when [n] is 0 or [s]
    contains no line feed. *)
Theorem indent_unchanged_iff (s : string) (n : nat) :
  indent s n = s <-> n = 0%nat \/ count_char newline s = 0%nat.
Proof.
  split.
  - intros H; apply (f_equal String.length) in H; rewrite indent_length_count in H.
    apply Nat.mul_eq_0; lia.
  - intros [->|H]; [apply indent_zero|apply indent_no_newline, H].
Qed.

(** X2: indenting twice is indenting once by the sum: [indent (indent s a) b]
    puts [a + b] spaces after every line feed of [s]. *)
Theorem indent_indent (s : string) (a b : nat) :
  indent (indent s a) b = indent s (a + b).
Proof.
  unfold indent; cbv zeta; induction s as [|x s IH]; cbn [replace_char]; [reflexivity|].
  destruct (Ascii.eqb x newline) eqn:E.
  - cbn [String.append replace_char]; rewrite Ascii.eqb_refl; cbn [String.append].
    rewrite replace_char_app, replace_newline_spaces, IH.
    assert (Hab : repeat_str " " (a + b) = repeat_str " " b ++ repeat_str " " a)
      by (rewrite Nat.add_comm; apply repeat_str_add).
    rewrite Hab, str_app_assoc; reflexivity.
  - cbn [replace_char]; rewrite E, IH; reflexivity.
Qed.

(** X3: [indent s n] is longer than [s] by [n] characters for every line
    feed of [s]. *)
Theorem indent_length (s : string) (n : nat) :
  String.length (indent s n) = (String.length s + n * count_char newline s)%nat.
Proof. apply indent_length_count. Qed.

(** The test of utils.rs. *)
Example indent_test :
  indent ("hello" ++ String newline "world" ++ String newline "  how's going?" ++
          String newline (String newline "Great, I guess...") ++ String newline EmptyString) 4 =
  "hello" ++ String newline "    world" ++ String newline "      how's going?" ++
  String newline "    " ++ String newline "    Great, I guess..." ++ String newline "    ".
Proof. reflexivity. Qed.

(** ** Error messages *)

Section ErrorFacts.
Context {Regex : Type} `{RE : RegexEngine Regex}.
Local Open Scope string_scope.

Lemma parse_field_lhs_reason (ovf : OverflowMode) (i : nat) (v : string) (e : FieldParseError) :
  parse_field_lhs (Regex:=Regex) ovf i v = Err e ->
  reason e = RegexError \/ reason e = ParseIntError \/ reason e = InvalidFormat \/
  reason e = NumberOutOfRange 0 255.
Proof.
  intros H; unfold parse_field_lhs, parse_name_pattern_field, parse_value_field,
    bind_outcome in H; cbv zeta in H.
  repeat (destruct_atomic_match; try discriminate; try (injection H as <-; cbn [reason]; tauto)).
Qed.

Lemma parse_field_lhs_message (ovf : OverflowMode) (lib : FieldErrorReason -> string)
  (i : nat) (v : string) (e : FieldParseError) :
  parse_field_lhs (Regex:=Regex) ovf i v = Err e ->
  exists reason_str,
    field_parse_error_to_string ovf lib e =
      Some ("Parsing '" ++ v ++ "' in field " ++ usize_to_string i ++ " failed: " ++ reason_str) /\
    (reason e = NumberOutOfRange 0 255 /\ reason_str = "Value must be between 1 and 254" \/
     reason e = InvalidFormat /\ reason_str = "Invalid format" \/
     (reason e = RegexError \/ reason e = ParseIntError) /\ reason_str = lib (reason e)).
Proof.
  intros H.
  destruct (parse_field_lhs_keyed ovf i v e H) as [Hi Hv].
  unfold field_parse_error_to_string; rewrite Hi, Hv.
  destruct (parse_field_lhs_reason ovf i v e H) as [R|[R|[R|R]]]; rewrite R.
  - exists (lib RegexError); split; [reflexivity|tauto].
  - exists (lib ParseIntError); split; [reflexivity|tauto].
  - exists "Invalid format"; split; [reflexivity|tauto].
  - exists "Value must be between 1 and 254"; split; [|tauto].
    destruct ovf; reflexivity.
Qed.

Lemma lhs_errors_from (ovf : OverflowMode) (tokens : list string) (i : nat) :
  Forall (fun fe => exists j t, parse_field_lhs (Regex:=Regex) ovf j t = Err fe)
    (lhs_errors (Regex:=Regex) ovf i tokens).
Proof.
  revert i; induction tokens as [|t ts IH]; intros i; cbn [lhs_errors]; [constructor|].
  destruct (String.eqb t FORWARD_SYMBOL); [constructor|].
  apply Forall_app; split; [|apply IH].
  destruct (parse_field_lhs ovf i t) as [| e |] eqn:Ef; repeat constructor.
  exists i, t; exact Ef.
Qed.

Lemma field_messages_some (ovf : OverflowMode) (lib : FieldErrorReason -> string)
  (fs : list FieldParseError) :
  Forall (fun fe => exists j t, parse_field_lhs (Regex:=Regex) ovf j t = Err fe) fs ->
  exists msgs, map_option (field_parse_error_to_string ovf lib) fs = Some msgs.
Proof.
  induction 1 as [|fe fs (j & t & Hf) _ (msgs & Hm)]; [exists []; reflexivity|].
  destruct (parse_field_lhs_message ovf lib j t fe Hf) as (r & Hr & _).
  cbn [map_option]; rewrite Hr, Hm; eexists; reflexivity.
Qed.

(** The errors [load_lines] adds: one per failing line, that line being
    non-blank, with its number and a non-empty list of field errors. *)
Lemma load_lines_errors (ovf : OverflowMode) (lines : list string) (n : nat)
  (rules rs : list (Rule Regex)) (errs es : list RuleParseError) :
  load_lines ovf n lines rules errs = Some (rs, es) ->
  exists new, es = (errs ++ new)%list /\
    Forall (fun e => exists k fs l, e = InvalidFields k fs /\ fs <> [] /\ (n <= k)%nat /\
              nth_error lines (k - n) = Some l /\ trim l <> "" /\
              Forall (fun fe => exists j t, parse_field_lhs (Regex:=Regex) ovf j t = Err fe) fs)
           new.
Proof.
  revert n rules errs; induction lines as [|l ls IH]; intros n rules errs H; cbn [load_lines] in H.
  - injection H as <- <-; exists []; rewrite app_nil_r; split; [reflexivity|constructor].
  - assert (Hshift : forall P : RuleParseError -> Prop, forall new,
      Forall (fun e => exists k fs l', e = InvalidFields k fs /\ fs <> [] /\ (S n <= k)%nat /\
              nth_error ls (k - S n) = Some l' /\ trim l' <> "" /\ P e) new ->
      Forall (fun e => exists k fs l', e = InvalidFields k fs /\ fs <> [] /\ (n <= k)%nat /\
              nth_error (l :: ls) (k - n) = Some l' /\ trim l' <> "" /\ P e) new).
    { intros P new; apply Forall_impl.
      intros e (k & fs & l' & He & Hfs & Hk & Hl & Ht & HP).
      exists k, fs, l'; repeat split; try assumption; [lia|].
      replace (k - n)%nat with (S (k - S n)) by lia; exact Hl. }
    destruct (String.eqb (trim l) "") eqn:Eb.
    + destruct (IH _ _ _ H) as (new & -> & Hnew); exists new; split; [reflexivity|].
      refine (Forall_impl _ _ (Hshift (fun e => match e with InvalidFields _ fs =>
        Forall (fun fe => exists j t, parse_field_lhs (Regex:=Regex) ovf j t = Err fe) fs end)
        new _)).
      * intros e (k & fs & l' & He & Hfs & Hk & Hl & Ht & HP); subst e.
        exists k, fs, l'; tauto.
      * eapply Forall_impl; [|exact Hnew].
        intros e (k & fs & l' & He & Hfs & Hk & Hl & Ht & HP); subst e.
        exists k, fs, l'; tauto.
    + destruct (parse_rule ovf n (trim l)) as [r|error|] eqn:Ep; [| |discriminate].
      * destruct (IH _ _ _ H) as (new & -> & Hnew); exists new; split; [reflexivity|].
        refine (Forall_impl _ _ (Hshift (fun e => match e with InvalidFields _ fs =>
          Forall (fun fe => exists j t, parse_field_lhs (Regex:=Regex) ovf j t = Err fe) fs end)
          new _)).
        -- intros e (k & fs & l' & He & Hfs & Hk & Hl & Ht & HP); subst e.
           exists k, fs, l'; tauto.
        -- eapply Forall_impl; [|exact Hnew].
           intros e (k & fs & l' & He & Hfs & Hk & Hl & Ht & HP); subst e.
           exists k, fs, l'; tauto.
      * destruct (IH _ _ _ H) as (new & -> & Hnew); exists (error :: new).
        rewrite <- app_assoc; split; [reflexivity|].
        pose proof (parse_rule_shape ovf n (trim l)) as Hs; rewrite Ep in Hs.
        destruct (Hs ltac:(discriminate)) as [He Hne].
        constructor.
        -- exists n, (invalid_fields_of ovf (trim l)), l.
           rewrite Nat.sub_diag; split; [exact He|split; [exact Hne|split; [lia|]]].
           split; [reflexivity|split; [apply String.eqb_neq; exact Eb|]].
           apply lhs_errors_from.
        -- refine (Forall_impl _ _ (Hshift (fun e => match e with InvalidFields _ fs =>
             Forall (fun fe => exists j t, parse_field_lhs (Regex:=Regex) ovf j t = Err fe) fs end)
             new _)).
           ++ intros e (k & fs & l' & He' & Hfs & Hk & Hl & Ht & HP); subst e.
              exists k, fs, l'; tauto.
           ++ eapply Forall_impl; [|exact Hnew].
              intros e (k & fs & l' & He' & Hfs & Hk & Hl & Ht & HP); subst e.
              exists k, fs, l'; tauto.
Qed.

Lemma load_lines_count (ovf : OverflowMode) (lines : list string) (n : nat)
  (rules rs : list (Rule Regex)) (errs es : list RuleParseError) :
  load_lines ovf n lines rules errs = Some (rs, es) ->
  (List.length rs + List.length es =
   List.length rules + List.length errs + List.length (numbered_lines n lines))%nat.
Proof.
  revert n rules errs; induction lines as [|l ls IH]; intros n rules errs H;
    cbn [load_lines numbered_lines] in H |- *.
  - injection H as <- <-; cbn; lia.
  - destruct (String.eqb (trim l) "") eqn:Eb; [apply IH in H; exact H|].
    cbn [List.length].
    destruct (parse_rule ovf n (trim l)); [| |discriminate]; apply IH in H;
      rewrite length_app in H; cbn [List.length] in H; lia.
Qed.

Lemma load_lines_blank (ovf : OverflowMode) (lines : list string) (n : nat)
  (rules : list (Rule Regex)) (errs : list RuleParseError) :
  Forall (fun l => trim l = "") lines -> load_lines ovf n lines rules errs = Some (rules, errs).
Proof.
  intros H; revert n; induction H as [|l ls Hl _ IH]; intros n; cbn [load_lines]; [reflexivity|].
  rewrite Hl; cbn [String.eqb]; apply IH.
Qed.

End ErrorFacts.

(** X4: the message of a field error names the token and its 0-based
    position in the line, and the reason; an out-of-range error always
    reads "Value must be between 1 and 254", although the typed tokens
    [ch0] and [ch255] are accepted. *)
Theorem field_error_message {Regex : Type} `{RE : RegexEngine Regex} (ovf : OverflowMode) (lib : FieldErrorReason -> string) :
  (forall (i : nat) (v : string) (e : FieldParseError),
     parse_field_lhs (Regex:=Regex) ovf i v = Err e ->
     exists reason_str,
       field_parse_error_to_string ovf lib e =
         Some ("Parsing '" ++ v ++ "' in field " ++ usize_to_string i ++ " failed: " ++ reason_str) /\
       (reason e = NumberOutOfRange 0 255 /\ reason_str = "Value must be between 1 and 254" \/
        reason e = InvalidFormat /\ reason_str = "Invalid format" \/
        (reason e = RegexError \/ reason e = ParseIntError) /\ reason_str = lib (reason e))) /\
  (forall k : nat,
     parse_field_lhs (Regex:=Regex) ovf (S k) "ch0" = Ok (ChannelField 0 0) /\
     parse_field_lhs (Regex:=Regex) ovf (S k) "ch255" = Ok (ChannelField 255 255)).
Proof.
  split; [apply parse_field_lhs_message|].
  intros k; destruct ovf; split; reflexivity.
Qed.

Section ConfigMessage.
Context {Regex : Type} `{RE : RegexEngine Regex}.
Local Open Scope string_scope.

Lemma rule_messages_located (ovf : OverflowMode) (lib : FieldErrorReason -> string)
  (lines : list string) (errs : list RuleParseError) :
  Forall (fun e => exists k fs l, e = InvalidFields k fs /\ fs <> [] /\ (0 <= k)%nat /\
            nth_error lines (k - 0) = Some l /\ trim l <> "" /\
            Forall (fun fe => exists j t, parse_field_lhs (Regex:=Regex) ovf j t = Err fe) fs)
         errs ->
  exists msgs,
    map_option (rule_parse_error_to_string ovf lib) errs = Some msgs /\
    Forall2 (fun e msg => exists k fs l rest, e = InvalidFields k fs /\ fs <> [] /\
               nth_error lines k = Some l /\ trim l <> "" /\
               msg = "Invalid field in line " ++ usize_to_string (k + 1) ++ ":" ++ item_sep ++ rest)
            errs msgs.
Proof.
  induction 1 as [|e errs (k & fs & l & -> & Hfs & _ & Hl & Ht & Hf) _ (msgs & Hm & H2)].
  - exists []; split; constructor.
  - destruct (field_messages_some ovf lib fs Hf) as (fmsgs & Hfm).
    cbn [map_option rule_parse_error_to_string]; rewrite Hfm, Hm; cbn [obind].
    eexists; split; [reflexivity|].
    constructor; [|exact H2].
    rewrite Nat.sub_0_r in Hl.
    exists k, fs, l, (join item_sep (map (fun msg => indent msg 4) fmsgs)).
    repeat split; assumption.
Qed.

End ConfigMessage.

(** X5: when loading fails, the whole error message does not panic; it
    starts with the number of failing lines, and each listed error reads
    "Invalid field in line N:" with [N] the 1-based number, blank lines
    included, of a non-blank line of the file. *)
Theorem config_error_message {Regex : Type} `{RE : RegexEngine Regex} (ovf : OverflowMode) (lib : FieldErrorReason -> string)
  (lines : list string) (cfg : RuleConfigError) :
  load_rules_from_file (Regex:=Regex) ovf lines = Err cfg ->
  exists msgs,
    rule_config_error_to_string ovf lib cfg =
      Some ("Rule parsing failed. " ++ usize_to_string (List.length (errors cfg)) ++
            " errors were found: " ++ item_sep ++ join item_sep (map (fun msg => indent msg 4) msgs)) /\
    Forall2 (fun e msg => exists k fs l rest, e = InvalidFields k fs /\ fs <> [] /\
               nth_error lines k = Some l /\ trim l <> "" /\
               msg = "Invalid field in line " ++ usize_to_string (k + 1) ++ ":" ++ item_sep ++ rest)
            (errors cfg) msgs.
Proof.
  unfold load_rules_from_file.
  destruct (load_lines ovf 0 lines [] []) as [[rs es]|] eqn:El; [|discriminate].
  destruct (load_lines_errors ovf lines 0 [] rs [] es El) as (new & Hes & Hnew).
  cbn [app] in Hes; subst new.
  intros H; assert (Hc : errors cfg = es) by (destruct es; [discriminate|injection H as <-; reflexivity]).
  rewrite <- Hc in Hnew.
  destruct (rule_messages_located ovf lib lines (errors cfg) Hnew) as (msgs & Hm & H2).
  exists msgs; split; [|exact H2].
  unfold rule_config_error_to_string; rewrite Hm; reflexivity.
Qed.

(** X6: a successful load gives exactly one rule per non-blank line of the
    file, and a file whose lines are all blank (or an empty file) loads as
    an empty rule list. *)
Theorem load_one_rule_per_line {Regex : Type} `{RE : RegexEngine Regex} (ovf : OverflowMode) (lines : list string) :
  (forall rs, load_rules_from_file (Regex:=Regex) ovf lines = Ok rs ->
     List.length rs = List.length (numbered_lines 0 lines)) /\
  (Forall (fun l => trim l = "") lines -> load_rules_from_file (Regex:=Regex) ovf lines = Ok []).
Proof.
  split.
  - intros rs; unfold load_rules_from_file.
    destruct (load_lines ovf 0 lines [] []) as [[rs' es]|] eqn:El; [|discriminate].
    apply load_lines_count in El; cbn [List.length] in El.
    destruct es; [|discriminate]; intros H; injection H as <-; cbn [List.length] in El; lia.
  - intros H; unfold load_rules_from_file; rewrite load_lines_blank by exact H; reflexivity.
Qed.

(** ** routing.rs: the set of all output ports *)

Section AllPortsFacts.
Context {Regex : Type} `{RE : RegexEngine Regex}.
Local Open Scope list_scope.

Lemma in_get_all_output_ports (t : RoutingTable Regex) (p : string) :
  In p (get_all_output_ports t) <-> exists r, In r (rules t) /\ In (ForwardTo p) (actions r).
Proof.
  unfold get_all_output_ports; rewrite nodup_In, in_map_iff; split.
  - intros ([q] & Hq & Hin); cbn in Hq; subst q.
    apply in_flat_map in Hin as (r & Hr & Ha); exists r; split; assumption.
  - intros (r & Hr & Ha); exists (ForwardTo p); split; [reflexivity|].
    apply in_flat_map; exists r; split; assumption.
Qed.

Lemma routed_ports_in_all (t : RoutingTable Regex) (e : MidiEvent) (p : string) :
  In p (get_output_ports t e) -> In p (get_all_output_ports t).
Proof.
  unfold get_output_ports; rewrite get_output_ports_acc; cbn [app]; destruct t as [rs].
  unfold routed_ports; cbn [rules]; intros Hin.
  apply in_flat_map in Hin as (r & Hr & Hp).
  destruct (matches (condition r) e); [|destruct Hp].
  apply in_map_iff in Hp as ([q] & Hq & Ha); cbn in Hq; subst q.
  apply in_get_all_output_ports; exists r; split; assumption.
Qed.

End AllPortsFacts.

(** X7: [get_all_output_ports] lists each port name at most once, and a
    name is listed exactly when some action of some rule forwards to it. *)
Theorem get_all_output_ports_spec (t : RoutingTable string) :
  NoDup (get_all_output_ports t) /\
  (forall p, In p (get_all_output_ports t) <->
             exists r, In r (rules t) /\ In (ForwardTo p) (actions r)).
Proof.
  split; [apply NoDup_nodup|apply in_get_all_output_ports].
Qed.

(** X8: every port [get_output_ports] routes an event to is one of
    [get_all_output_ports], the ports registered at start-up. *)
Theorem output_ports_registered {Regex : Type} `{RE : RegexEngine Regex} (t : RoutingTable Regex) (e : MidiEvent) :
  incl (get_output_ports t e) (get_all_output_ports t).
Proof. intros p; apply routed_ports_in_all. Qed.

(** ** jack_router.rs *)

Section JackFacts.
Context {Regex : Type} `{RE : RegexEngine Regex}.
Variable ovf : OverflowMode.
Variable JackError : Type.
Variable register_port : string -> option JackError.
Variable write_ok : list (string * RawMidi) -> string -> RawMidi -> bool.
Local Open Scope list_scope.

Lemma register_ports_spec (names ports : list string) (errs : list JackError) :
  register_ports JackError register_port names ports errs =
    (ports ++ filter (registered JackError register_port) names, errs ++ registration_errors JackError register_port names).
Proof.
  revert ports errs; induction names as [|p names IH]; intros ports errs; cbn [register_ports].
  - rewrite !app_nil_r; reflexivity.
  - unfold registration_errors in *; cbn [filter flat_map]; unfold registered at 1.
    destruct (register_port p); rewrite IH, <- app_assoc; reflexivity.
Qed.

Lemma registration_errors_nil (names : list string) :
  registration_errors JackError register_port names = [] -> filter (registered JackError register_port) names = names.
Proof.
  induction names as [|p names IH]; [reflexivity|]; unfold registration_errors; cbn.
  unfold registered at 1; destruct (register_port p); [discriminate|].
  intros H; f_equal; apply IH, H.
Qed.

Lemma send_event_out_some (raw : RawMidi) (names writers : list string)
  (log log' : list (string * RawMidi)) :
  send_event_out write_ok raw names writers log = Some log' ->
  log' = log ++ delivered writers raw names.
Proof.
  revert log; induction names as [|p names IH]; intros log H; cbn [send_event_out] in H.
  - injection H as <-; unfold delivered; cbn; rewrite app_nil_r; reflexivity.
  - unfold delivered; cbn [filter].
    destruct (existsb (String.eqb p) writers).
    + destruct (write_ok log p raw); [|discriminate].
      rewrite (IH _ H), <- app_assoc; reflexivity.
    + exact (IH _ H).
Qed.

Lemma send_event_out_total (raw : RawMidi) (names writers : list string)
  (log : list (string * RawMidi)) :
  (forall l p r, write_ok l p r = true) ->
  send_event_out write_ok raw names writers log = Some (log ++ delivered writers raw names).
Proof.
  intros Hw; revert log; induction names as [|p names IH]; intros log; cbn [send_event_out].
  - unfold delivered; cbn; rewrite app_nil_r; reflexivity.
  - unfold delivered; cbn [filter].
    destruct (existsb (String.eqb p) writers); [rewrite Hw, IH, <- app_assoc|rewrite IH];
      reflexivity.
Qed.

Lemma process_events_some (t : RoutingTable Regex) (writers : list string)
  (inputs : list RawMidi) (log log' : list (string * RawMidi)) :
  process_events ovf write_ok t writers inputs log = Some log' ->
  log' = log ++ cycle_writes ovf t writers inputs.
Proof.
  revert log; induction inputs as [|raw inputs IH]; intros log H; cbn [process_events] in H.
  - injection H as <-; cbn; rewrite app_nil_r; reflexivity.
  - unfold cycle_writes; cbn [flat_map]; fold (cycle_writes ovf t writers inputs).
    destruct (decode_raw_midi ovf (bytes raw)) as [ev|err|]; [|exact (IH _ H)|discriminate].
    destruct (send_event_out write_ok raw (get_output_ports t ev) writers log) as [l1|] eqn:Es;
      [|discriminate].
    rewrite (IH _ H), (send_event_out_some _ _ _ _ _ Es), <- app_assoc; reflexivity.
Qed.

Lemma process_events_total (t : RoutingTable Regex) (writers : list string)
  (inputs : list RawMidi) (log : list (string * RawMidi)) :
  (forall l p r, write_ok l p r = true) ->
  Forall (fun raw => decode_raw_midi ovf (bytes raw) <> Panic) inputs ->
  process_events ovf write_ok t writers inputs log = Some (log ++ cycle_writes ovf t writers inputs).
Proof.
  intros Hw Hd; revert log; induction Hd as [|raw inputs Hr _ IH]; intros log;
    cbn [process_events].
  - cbn; rewrite app_nil_r; reflexivity.
  - unfold cycle_writes; cbn [flat_map]; fold (cycle_writes ovf t writers inputs).
    destruct (decode_raw_midi ovf (bytes raw)) as [ev|err|]; [|apply IH|contradiction].
    rewrite send_event_out_total by exact Hw; rewrite IH, <- app_assoc; reflexivity.
Qed.

Lemma delivered_all (writers : list string) (raw : RawMidi) (names : list string) :
  incl names writers -> delivered writers raw names = map (fun p => (p, raw)) names.
Proof.
  intros Hi; unfold delivered; f_equal.
  induction names as [|p names IH]; [reflexivity|]; cbn [filter].
  replace (existsb (String.eqb p) writers) with true.
  - f_equal; apply IH; intros q Hq; apply Hi; right; exact Hq.
  - symmetry; apply existsb_exists; exists p; split; [apply Hi; left; reflexivity|].
    apply String.eqb_refl.
Qed.

End JackFacts.

(** X9: registering the output ports is all or nothing: it succeeds with
    the ports of [get_all_output_ports] when every one of them registers,
    and otherwise fails with one error for each port that did not register. *)
Theorem register_output_ports_all_or_errors (JackError : Type)
  (register_port : string -> option JackError) (t : RoutingTable string) :
  match register_midi_output_ports JackError register_port t with
  | Ok keys => keys = get_all_output_ports t /\ Forall (fun p => register_port p = None) keys
  | Err e => reasons JackError e = registration_errors JackError register_port (get_all_output_ports t) /\
             reasons JackError e <> []
  | Panic => False
  end.
Proof.
  unfold register_midi_output_ports; rewrite register_ports_spec; cbn [app].
  destruct (registration_errors JackError register_port (get_all_output_ports t)) as [|err errs]
    eqn:He.
  - rewrite (registration_errors_nil JackError register_port _ He); split; [reflexivity|].
    apply Forall_forall; intros p Hp.
    rewrite <- (registration_errors_nil JackError register_port _ He) in Hp.
    apply filter_In in Hp as [_ Hp]; unfold registered in Hp.
    destruct (register_port p); [discriminate|reflexivity].
  - split; [reflexivity|discriminate].
Qed.

(** X10: a cycle of [process] that does not panic writes, for each input
    event in order that decodes, the raw event unchanged to each port it is
    routed to that has a writer, in routing order; an event that does not
    decode and a port without a writer are skipped. *)
Theorem process_writes {Regex : Type} `{RE : RegexEngine Regex} (ovf : OverflowMode)
  (write_ok : list (string * RawMidi) -> string -> RawMidi -> bool)
  (t : RoutingTable Regex) (output_ports : list string) (inputs : list RawMidi)
  (log : list (string * RawMidi)) :
  process ovf write_ok t output_ports inputs = Some log ->
  log = cycle_writes ovf t output_ports inputs.
Proof.
  unfold process, create_output_port_writers; rewrite map_id.
  intros H; exact (process_events_some ovf write_ok t output_ports inputs [] log H).
Qed.

(** X11: with the ports of a successful registration, writes that do not
    fail and events that decode without panicking, [process] sends every
    decodable event to every port [get_output_ports] returns for it,
    repeated ports included, in order. *)
Theorem process_after_registration {Regex : Type} `{RE : RegexEngine Regex} (ovf : OverflowMode) (JackError : Type)
  (register_port : string -> option JackError)
  (write_ok : list (string * RawMidi) -> string -> RawMidi -> bool)
  (t : RoutingTable Regex) (keys : list string) (inputs : list RawMidi) :
  register_midi_output_ports JackError register_port t = Ok keys ->
  (forall l p r, write_ok l p r = true) ->
  Forall (fun raw => decode_raw_midi ovf (bytes raw) <> Panic) inputs ->
  process ovf write_ok t keys inputs =
    Some (flat_map (fun raw => match decode_raw_midi ovf (bytes raw) with
                               | Ok ev => map (fun p => (p, raw)) (get_output_ports t ev)
                               | _ => []
                               end) inputs).
Proof.
  intros Hr Hw Hd.
  assert (Hk : keys = get_all_output_ports t).
  { unfold register_midi_output_ports in Hr; rewrite register_ports_spec in Hr; cbn [app] in Hr.
    destruct (registration_errors JackError register_port (get_all_output_ports t)) eqn:He;
      [|discriminate].
    injection Hr as <-; apply registration_errors_nil with (register_port := register_port), He. }
  subst keys.
  unfold process, create_output_port_writers; rewrite map_id.
  rewrite process_events_total by assumption; cbn [app]; unfold cycle_writes.
  apply f_equal, flat_map_ext; intros raw.
  destruct (decode_raw_midi ovf (bytes raw)) as [ev| |]; [|reflexivity|reflexivity].
  apply delivered_all; intros p; apply routed_ports_in_all.
Qed.

(** ** Parser: edge cases of the field and rule grammar *)

Section ParserEdgeFacts.
Context {Regex : Type} `{RE : RegexEngine Regex}.

Lemma parse_tokens_rhs (ovf : OverflowMode) (tokens : list string) (p : RuleParser Regex) (i : nat) :
  state p = ParseRightHandSide ->
  parse_tokens ovf p i tokens =
    Some {| condition_builder := condition_builder p; rp_errors := rp_errors p;
            output_names := (output_names p ++ filter not_separator tokens)%list;
            state := ParseRightHandSide |}.
Proof.
  revert p i; induction tokens as [|t ts IH]; intros p i Hs; cbn [parse_tokens].
  - destruct p; cbn in *; subst; rewrite app_nil_r; reflexivity.
  - cbn [filter].
    destruct (String.eqb t FORWARD_SYMBOL) eqn:Et;
      [replace (not_separator t) with false by (unfold not_separator; rewrite Et; reflexivity)
      |replace (not_separator t) with true by (unfold not_separator; rewrite Et; reflexivity)].
    + rewrite IH by reflexivity; reflexivity.
    + rewrite Hs, IH by exact Hs; cbn [parse_rhs condition_builder rp_errors output_names].
      rewrite <- app_assoc; reflexivity.
Qed.

Lemma matches_empty_condition (e : MidiEvent) : matches (Regex:=Regex) ConditionBuilder_new e = true.
Proof. destruct e; reflexivity. Qed.

End ParserEdgeFacts.


(** X13: a line whose first token is [=>] always parses: it gives a rule
    with an empty condition, which matches every event, forwarding to the
    other tokens of the line that are not [=>]. *)
Theorem rule_without_condition (ovf : OverflowMode) (line_no : nat) (line : string)
  (rest : list string) :
  split_whitespace (trim line) = FORWARD_SYMBOL :: rest ->
  parse_rule (Regex:=string) ovf line_no line =
    Ok {| condition := ConditionBuilder_new; actions := map ForwardTo (filter not_separator rest) |} /\
  forall e, matches (Regex:=string) ConditionBuilder_new e = true.
Proof.
  intros Hs; split; [|apply matches_empty_condition].
  unfold parse_rule, RuleParser_parse; rewrite Hs; cbn [parse_tokens].
  replace (String.eqb FORWARD_SYMBOL FORWARD_SYMBOL) with true by reflexivity.
  rewrite parse_tokens_rhs by reflexivity; reflexivity.
Qed.

(** X14: an untyped range token whose start is above its end (such as
    [10-5]) is accepted as a value field with that empty range, and a
    condition with that value range then matches no event that has a value
    field. *)
Theorem empty_value_range_accepted {Regex : Type} `{RE : RegexEngine Regex} (ovf : OverflowMode) (k : nat) (s : string)
  (caps : Captures) (st en : Z) :
  field_pat_captures s = Some caps ->
  cap_type caps = None ->
  token_range caps = Some (st, en) ->
  (en < st)%Z ->
  parse_field_lhs (Regex:=Regex) ovf (S k) s = Ok (ValueField st en) /\
  forall (c : Condition Regex) (e : MidiEvent) (v : Z),
    value_pattern c = Some {| start := st; end_ := en |} ->
    In (SlotValue, v) (applicable_fields e) ->
    matches c e = false.
Proof.
  intros Hc Ht Hr Hlt; split.
  - rewrite (parse_field_lhs_token_range ovf k s caps st en Hc Hr), Ht; reflexivity.
  - intros c e v Hv Hin; rewrite matches_table.
    replace (forallb _ (applicable_fields e)) with false; [apply andb_false_r|].
    symmetry; apply not_true_iff_false; intros Hf.
    rewrite forallb_forall in Hf; specialize (Hf _ Hin); cbn [fst snd slot_pattern] in Hf.
    rewrite Hv in Hf; cbn [match_range is_within start end_] in Hf.
    apply andb_true_iff in Hf as [H1 H2]; apply Z.leb_le in H1, H2; cbn [start end_] in H1, H2; lia.
Qed.

(** ** midi.rs: the channel of a decoded message *)

Section DecodeChannel.
Local Open Scope Z_scope.

Lemma channel_bounds (b0 : Z) : 1 <= Z.land b0 15 + 1 <= 16.
Proof.
  change 15 with (Z.ones 4); rewrite Z.land_ones by lia.
  pose proof (Z.mod_pos_bound b0 (2 ^ 4) ltac:(lia)); change (2 ^ 4) with 16 in *; lia.
Qed.

Lemma decode_channel_slot (ovf : OverflowMode) (b0 : Z) (rest : list Z) (ev : MidiEvent) (ch : Z) :
  decode_raw_midi ovf (b0 :: rest) = Ok ev ->
  In (SlotChannel, ch) (applicable_fields ev) -> ch = Z.land b0 15 + 1.
Proof.
  intros H Hin; unfold decode_raw_midi in H; cbn [nth_error] in H; cbv zeta in H.
  remember (Z.land b0 15 + 1) as channel eqn:Hch.
  repeat (destruct_atomic_match; try discriminate);
    injection H as <-; cbn [applicable_fields In] in Hin;
    repeat match goal with Hin : _ \/ _ |- _ => destruct Hin as [Hin|Hin] end;
    first [contradiction | discriminate | congruence].
Qed.

End DecodeChannel.

(** X15: every channel message [decode_raw_midi] returns has its channel in
    1..16, so a condition whose channel range lies outside 1..16 (such as
    [ch0] or [ch17-255]) matches no decoded channel message. *)
Theorem decoded_channel_in_1_16 {Regex : Type} `{RE : RegexEngine Regex} (ovf : OverflowMode) (bytes : list Z) (ev : MidiEvent) :
  decode_raw_midi ovf bytes = Ok ev ->
  (forall ch, In (SlotChannel, ch) (applicable_fields ev) -> (1 <= ch <= 16)%Z) /\
  (forall (c : Condition Regex) (st en : Z),
     channel_pattern c = Some {| start := st; end_ := en |} ->
     (en < 1 \/ 16 < st)%Z ->
     is_system_message ev = false ->
     matches c ev = false).
Proof.
  intros H.
  destruct bytes as [|b0 rest]; [discriminate|].
  assert (Hch : forall ch, In (SlotChannel, ch) (applicable_fields ev) -> (1 <= ch <= 16)%Z).
  { intros ch Hin; rewrite (decode_channel_slot ovf b0 rest ev ch H Hin); apply channel_bounds. }
  split; [exact Hch|].
  intros c st en Hc Hout Hsys.
  assert (Hin : exists ch, In (SlotChannel, ch) (applicable_fields ev)).
  { destruct ev; try discriminate; eexists; cbn; left; reflexivity. }
  destruct Hin as (ch & Hin).
  specialize (Hch ch Hin).
  rewrite matches_table.
  replace (forallb _ (applicable_fields ev)) with false; [apply andb_false_r|].
  symmetry; apply not_true_iff_false; intros Hf.
  rewrite forallb_forall in Hf; specialize (Hf _ Hin); cbn [fst snd slot_pattern] in Hf.
  rewrite Hc in Hf; cbn [match_range is_within] in Hf.
  apply andb_true_iff in Hf as [H1 H2]; apply Z.leb_le in H1, H2; cbn [start end_] in H1, H2; lia.
Qed.

(** ** Witnesses of the properties with hypotheses *)

Lemma config_error_message_witness :
  exists cfg, load_rules_from_file (Regex:=string) Checked example_config = Err cfg /\
  exists msgs,
    rule_config_error_to_string Checked (fun _ => "library error") cfg =
      Some ("Rule parsing failed. " ++ usize_to_string (List.length (errors cfg)) ++
            " errors were found: " ++ item_sep ++ join item_sep (map (fun msg => indent msg 4) msgs)) /\
    Forall2 (fun e msg => exists k fs l rest, e = InvalidFields k fs /\ fs <> [] /\
               nth_error example_config k = Some l /\ trim l <> "" /\
               msg = "Invalid field in line " ++ usize_to_string (k + 1) ++ ":" ++ item_sep ++ rest)
            (errors cfg) msgs.
Proof.
  eexists; split; [vm_compute; reflexivity|].
  apply (config_error_message (Regex:=string) Checked (fun _ => "library error") example_config).
  vm_compute; reflexivity.
Defined.

Lemma process_writes_witness :
  process (Regex:=string) Checked (fun _ _ _ => true) example_table ["a"] example_inputs =
    Some [("a", {| time := 0; bytes := [144; 60; 100] |});
          ("a", {| time := 0; bytes := [144; 60; 100] |});
          ("a", {| time := 2; bytes := [128; 60; 0] |})] /\
  [("a", {| time := 0; bytes := [144; 60; 100] |});
   ("a", {| time := 0; bytes := [144; 60; 100] |});
   ("a", {| time := 2; bytes := [128; 60; 0] |})] =
    cycle_writes Checked example_table ["a"] example_inputs.
Proof.
  assert (H : process (Regex:=string) Checked (fun _ _ _ => true) example_table ["a"] example_inputs =
    Some [("a", {| time := 0; bytes := [144; 60; 100] |});
          ("a", {| time := 0; bytes := [144; 60; 100] |});
          ("a", {| time := 2; bytes := [128; 60; 0] |})]) by (vm_compute; reflexivity).
  split; [exact H|].
  exact (process_writes (Regex:=string) Checked (fun _ _ _ => true) example_table ["a"] example_inputs _ H).
Defined.

Lemma process_after_registration_witness :
  register_midi_output_ports unit (fun _ => None) example_table = Ok ["b"; "a"] /\
  process Checked (fun _ _ _ => true) example_table ["b"; "a"] example_inputs =
    Some [("a", {| time := 0; bytes := [144; 60; 100] |});
          ("b", {| time := 0; bytes := [144; 60; 100] |});
          ("a", {| time := 0; bytes := [144; 60; 100] |});
          ("a", {| time := 2; bytes := [128; 60; 0] |})].
Proof.
  assert (Hr : register_midi_output_ports unit (fun _ => None) example_table = Ok ["b"; "a"])
    by (vm_compute; reflexivity).
  split; [exact Hr|].
  rewrite (process_after_registration (Regex:=string) Checked unit (fun _ => None) (fun _ _ _ => true)
             example_table ["b"; "a"] example_inputs Hr (fun _ _ _ => eq_refl)).
  - vm_compute; reflexivity.
  - repeat (apply Forall_cons; [intros Hd; vm_compute in Hd; discriminate Hd|]); apply Forall_nil.
Defined.


Lemma rule_without_condition_witness :
  parse_rule (Regex:=string) Checked 0 "=> out => x" =
    Ok {| condition := ConditionBuilder_new; actions := [ForwardTo "out"; ForwardTo "x"] |}.
Proof.
  rewrite (proj1 (rule_without_condition Checked 0 "=> out => x" ["out"; "=>"; "x"]
                    ltac:(vm_compute; reflexivity))).
  reflexivity.
Defined.

Lemma empty_value_range_accepted_witness :
  parse_field_lhs (Regex:=string) Checked 1 "10-5" = Ok (ValueField 10 5) /\
  matches {| event_pattern := None; channel_pattern := None;
             value_pattern := Some {| start := 10; end_ := 5 |};
             velocity_pattern := None; controller_pattern := None |} (NoteOn 1 7 100) = false.
Proof.
  destruct (empty_value_range_accepted (Regex:=string) Checked 0 "10-5"
              {| cap_type := None; cap_wildcard := None; cap_start := Some "10";
                 cap_end := Some "5"; cap_lower_bound := None; cap_upper_bound := None;
                 cap_exact_value := None |} 10 5) as [H1 H2].
  - vm_compute; reflexivity.
  - reflexivity.
  - vm_compute; reflexivity.
  - lia.
  - split; [exact H1|].
    apply (H2 _ _ 7); [reflexivity|cbn; right; left; reflexivity].
Defined.

Lemma decoded_channel_in_1_16_witness :
  decode_raw_midi Checked [144; 60; 100] = Ok (NoteOn 1 60 100) /\
  matches {| event_pattern := None; channel_pattern := Some {| start := 0; end_ := 0 |};
             value_pattern := None; velocity_pattern := None; controller_pattern := None |}
          (NoteOn 1 60 100) = false.
Proof.
  assert (H : decode_raw_midi Checked [144; 60; 100] = Ok (NoteOn 1 60 100)) by reflexivity.
  split; [exact H|].
  apply (proj2 (decoded_channel_in_1_16 (Regex:=string) Checked [144; 60; 100] (NoteOn 1 60 100) H) _ 0 0);
    [reflexivity|left; lia|reflexivity].
Defined.
